(** * Blackjack round engine and search tree: a shallow embedding

    The definitions below follow [blackjack.py]: the card model and
    [get_value], the per-hand action loop [Game.play] with [Game.deal]
    and [Game.reward], and the search-tree node [MCTSNode] with
    [select_child] and [backpropogate].

    Conventions.
    - Card values are integers ([Z]); every preset deck except "low"
      carries integer values only.
    - Money is a rational ([Q]): [3*self.bet/2] is a true division.
    - Printing guarded by [self.verbose] is not modelled.
    - An agent is a transition function on its own state; the random
      agents draw from whatever their state holds. *)

From Stdlib Require Import ZArith QArith Lia String List Bool Reals Lra.
From Stdlib Require Import Permutation.
From stdpp Require Import base option list gmap.
Import ListNotations.

Local Open Scope Z_scope.

(** ** Cards *)

Module Cards.

Record Card := mkCard { color : string; rank : string; value : Z }.

(** [Card.__eq__]: suit and rank, the value is not compared. *)
Definition card_eqb (a b : Card) : bool :=
  String.eqb (color a) (color b) && String.eqb (rank a) (rank b).

Definition default_suits : list string :=
  ["Hearts"; "Spades"; "Clubs"; "Diamonds"]%string.

Definition default_ranks : list (string * Z) :=
  [("2", 2); ("3", 3); ("4", 4); ("5", 5); ("6", 6); ("7", 7); ("8", 8);
   ("9", 9); ("10", 10); ("Jack", 10); ("Queen", 10); ("King", 10);
   ("Ace", 11)]%string.

Definition generate_deck (suits : list string) (ranks : list (string * Z))
  : list Card :=
  flat_map (fun suit => map (fun rv => mkCard suit (fst rv) (snd rv)) ranks)
           suits.

Definition is_ace (c : Card) : bool := String.eqb (rank c) "Ace".

(** The [for] loop of [get_value]: running total and number of aces. *)
Fixpoint tally (cards : list Card) (result : Z) (aces : nat) : Z * nat :=
  match cards with
  | [] => (result, aces)
  | c :: cs =>
      tally cs (result + value c) (if is_ace c then S aces else aces)
  end.

(** The [while result > 21 and aces > 0] loop; it runs at most [aces]
    times, so it recurses on [aces]. *)
Fixpoint soften (result : Z) (aces : nat) : Z :=
  match aces with
  | O => result
  | S aces' => if 21 <? result then soften (result - 10) aces' else result
  end.

Definition get_value (cards : list Card) : Z :=
  let '(result, aces) := tally cards 0 0 in soften result aces.

Definition same_rank (a b : Card) : bool := String.eqb (rank a) (rank b).
Definition same_value (a b : Card) : bool := Z.eqb (value a) (value b).

(** *** Vocabulary of the specification of [get_value] *)

Definition raw_sum (cards : list Card) : Z :=
  fold_right (fun c acc => value c + acc) 0 cards.

Fixpoint count_aces (cards : list Card) : nat :=
  match cards with
  | [] => O
  | c :: cs => if is_ace c then S (count_aces cs) else count_aces cs
  end.

(** An ace counted as eleven, any other card at its own value. *)
Definition ace_high (c : Card) : Z := if is_ace c then 11 else value c.

Definition ace_high_sum (cards : list Card) : Z :=
  fold_right (fun c acc => ace_high c + acc) 0 cards.

(** Every ace of the hand is worth eleven, as in all preset decks. *)
Definition aces_worth_eleven (cards : list Card) : Prop :=
  Forall (fun c => is_ace c = true -> value c = 11) cards.

End Cards.
Export Cards.

(** ** The round engine *)

Module Engine.

Inductive Action := HIT | STAND | DOUBLE_DOWN | SPLIT.

Definition Action_eqb (a b : Action) : bool :=
  match a, b with
  | HIT, HIT | STAND, STAND | DOUBLE_DOWN, DOUBLE_DOWN | SPLIT, SPLIT => true
  | _, _ => false
  end.

(** [act in actions] *)
Definition action_in (act : Action) (actions : list Action) : bool :=
  existsb (Action_eqb act) actions.

(** The [player] argument of [Game.play]: [self.player] or [self.dealer]. *)
Inductive Seat := ThePlayer | TheDealer.

(** Which list object the [cards] argument of [Game.play] is: the list
    held in [self.player_cards], the one held in [self.dealer_cards], or
    a list of its own (a pile made by a split). [Game.deal] appends in
    place, so a card dealt to an aliased list shows in the field too. *)
Inductive HandRef := PlayerCards | DealerCards | Pile.

(** How a call ends: with a value, or with the [IndexError] that
    [self.deck[0]] raises on an empty deck; [OutOfFuel] is the bound of
    the model on the number of loop iterations, not a behaviour of the
    program. Each case carries the game as the call leaves it. *)
Inductive outcome (G A : Type) : Type :=
| Done (a : A) (g : G)
| IndexError (g : G)
| OutOfFuel (g : G).
Arguments Done {G A} a g.
Arguments IndexError {G A} g.
Arguments OutOfFuel {G A} g.

Definition bind {G A B : Type} (m : outcome G A)
    (k : A -> G -> outcome G B) : outcome G B :=
  match m with
  | Done a g => k a g
  | IndexError g => IndexError g
  | OutOfFuel g => OutOfFuel g
  end.

Definition game_of {G A : Type} (m : outcome G A) : G :=
  match m with
  | Done _ g => g
  | IndexError g => g
  | OutOfFuel g => g
  end.

Notation "'do' ( x , g ) <- m ; k" :=
  (bind m (fun x g => k))
  (at level 10, x pattern, g name, m at level 100, k at level 200).

(** One call [player.get_action(cards, actions, self.dealer_cards[:1])]
    with the action it returned. *)
Record Query := mkQuery {
  q_seat : Seat;
  q_cards : list Card;
  q_actions : list Action;
  q_dealer : list Card;
  q_answer : Action
}.

(** [Dealer.get_action] *)
Definition dealer_get_action (cards : list Card) (actions : list Action)
    (dealer_cards : list Card) : Action :=
  if get_value cards <? 17 then HIT else STAND.

Section Game.

(** The agent behind [self.player]: its state and its [get_action]. *)
Context {AgentState : Type}.
Variable agent_get_action :
  AgentState -> list Card -> list Action -> list Card -> Action * AgentState.
Variable split_rule : Card -> Card -> bool.

(** The mutable fields of a [Game] during a round, the state of the
    agent, and the record of the [get_action] calls made so far. *)
Record Game := mkGame {
  deck : list Card;
  bet : Z;
  dealer_cards : list Card;
  player_cards : list Card;
  agent : AgentState;
  asked : list Query
}.

Definition set_bet (g : Game) (b : Z) : Game :=
  mkGame (deck g) b (dealer_cards g) (player_cards g) (agent g) (asked g).

(** Writes the new content of the list [r] stands for. *)
Definition store (r : HandRef) (cards : list Card) (g : Game) : Game :=
  match r with
  | PlayerCards =>
      mkGame (deck g) (bet g) (dealer_cards g) cards (agent g) (asked g)
  | DealerCards =>
      mkGame (deck g) (bet g) cards (player_cards g) (agent g) (asked g)
  | Pile => g
  end.

(** [Game.deal]: the first card of the deck is appended to [cards]. *)
Definition deal (g : Game) (r : HandRef) (cards : list Card)
  : outcome Game (list Card) :=
  match deck g with
  | [] => IndexError g
  | card :: rest =>
      let g' := mkGame rest (bet g) (dealer_cards g) (player_cards g)
                       (agent g) (asked g) in
      Done (cards ++ [card]) (store r (cards ++ [card]) g')
  end.

(** The [actions] list built at the top of each iteration of [play]. *)
Definition legal_actions (cards : list Card) (cansplit : bool) : list Action :=
  [HIT; STAND; DOUBLE_DOWN] ++
  (if (length cards =? 2)%nat && cansplit &&
      match cards !! 0%nat, cards !! 1%nat with
      | Some a, Some b => split_rule a b
      | _, _ => false
      end
   then [SPLIT] else []).

(** [player.get_action(cards, actions, self.dealer_cards[:1])] *)
Definition get_action (who : Seat) (g : Game) (cards : list Card)
    (actions : list Action) : Action * Game :=
  let seen := take 1 (dealer_cards g) in
  match who with
  | TheDealer =>
      let act := dealer_get_action cards actions seen in
      (act, mkGame (deck g) (bet g) (dealer_cards g) (player_cards g) (agent g)
                   (asked g ++ [mkQuery who cards actions seen act]))
  | ThePlayer =>
      let '(act, s) := agent_get_action (agent g) cards actions seen in
      (act, mkGame (deck g) (bet g) (dealer_cards g) (player_cards g) s
                   (asked g ++ [mkQuery who cards actions seen act]))
  end.

(** [Game.play]. The value is the returned list of hands together with
    the final content of the list object [cards]. Each unit of fuel pays
    for one iteration of the [while] loop. *)
Fixpoint play (fuel : nat) (who : Seat) (r : HandRef) (g : Game)
    (cards : list Card) (cansplit : bool)
  : outcome Game (list (list Card) * list Card) :=
  match fuel with
  | O => OutOfFuel g
  | S fuel' =>
      if get_value cards <? 21 then
        let actions := legal_actions cards cansplit in
        let '(act, g1) := get_action who g cards actions in
        if action_in act actions then
          match act with
          | STAND => Done ([cards], cards) g1
          | HIT =>
              do (cards', g2) <- deal g1 r cards;
              play fuel' who r g2 cards' cansplit
          | DOUBLE_DOWN =>
              do (cards', g2) <- deal g1 r cards;
              Done ([cards'], cards') (set_bet g2 (bet g2 * 2))
          | SPLIT =>
              let pilea := take 1 cards in
              let pileb := drop 1 cards in
              do (ra, g2) <- play fuel' who Pile g1 pilea false;
              do (rb, g3) <- play fuel' who Pile g2 pileb false;
              Done ([snd ra; snd rb], cards) g3
          end
        else play fuel' who r g1 cards cansplit
      else Done ([cards], cards) g
  end.

(** [Game.reward]; [result] is assigned as in the source, one [let] per
    assignment. *)
Definition reward (g : Game) (hand : list Card) : Q :=
  let pscore := get_value hand in
  let dscore := get_value (dealer_cards g) in
  if 21 <? pscore then inject_Z (- bet g)
  else
    let result := inject_Z (- bet g) in
    let result :=
      if (dscore <? pscore) || (21 <? dscore) then
        let result :=
          if (pscore =? 21) && (length (player_cards g) =? 2)%nat
          then (inject_Z (3 * bet g) / 2)%Q
          else result in
        inject_Z (bet g)
      else result in
    let result :=
      if (pscore =? dscore) &&
         (negb (pscore =? 21) || negb (length (player_cards g) =? 2)%nat)
      then 0%Q
      else result in
    result.

(** [Game.play_round]: the player's hands, then the dealer's, then the
    sum of the rewards of the player's hands. *)
Definition play_round (fuel : nat) (g : Game) : outcome Game Q :=
  do (rp, g1) <- play fuel ThePlayer PlayerCards g (player_cards g) true;
  do (rd, g2) <- play fuel TheDealer DealerCards g1 (dealer_cards g1) true;
  Done (fold_left Qplus (map (reward g2) (fst rp)) 0%Q) g2.

End Game.

Arguments mkGame {AgentState}.
Arguments Game : clear implicits.

(** *** Agents *)

(** [TimidPlayer]: always stands. *)
Definition timid_get_action (s : unit) (cards : list Card)
    (actions : list Action) (dealer_cards : list Card) : Action * unit :=
  (STAND, s).

(** [RolloutPlayer]: the queued actions first, then [random.choice];
    the random draws are the indices held in [draws]. *)
Record Rollout := mkRollout {
  queued_actions : list Action;
  actions_done : list Action;
  draws : list nat
}.

Definition rollout_get_action (s : Rollout) (cards : list Card)
    (actions : list Action) (dealer_cards : list Card) : Action * Rollout :=
  match queued_actions s with
  | act :: rest => (act, mkRollout rest (actions_done s ++ [act]) (draws s))
  | [] =>
      let i := hd 0%nat (draws s) in
      let act := nth (i mod length actions) actions STAND in
      (act, mkRollout [] (actions_done s ++ [act]) (tl (draws s)))
  end.

(** *** Vocabulary of the properties of [play] *)

(** The answer of [q] was a Split taken from the offered actions. *)
Definition took_split (q : Query) : bool :=
  Action_eqb (q_answer q) SPLIT && action_in SPLIT (q_actions q).

(** Split is among the actions offered in [q] exactly when the hand has
    two cards, splitting is still permitted, and the rule holds. *)
Definition split_offer (split_rule : Card -> Card -> bool)
    (permitted : bool) (q : Query) : Prop :=
  In SPLIT (q_actions q) <->
  (length (q_cards q) = 2%nat /\ permitted = true /\
   exists a b, q_cards q = [a; b] /\ split_rule a b = true).

(** Along a sequence of calls, the permission to split is the one the
    hand started with, and it is gone for good once a Split is taken. *)
Fixpoint split_discipline (split_rule : Card -> Card -> bool)
    (permitted : bool) (calls : list Query) : Prop :=
  match calls with
  | [] => True
  | q :: rest =>
      split_offer split_rule permitted q /\
      split_discipline split_rule (permitted && negb (took_split q)) rest
  end.

End Engine.
Export Engine.

(** ** The search tree *)

Module Tree.

(** The float operations [MCTSNode] uses, kept abstract: [math.log] and
    [math.sqrt] have no executable counterpart here. *)
Class FloatOps (F : Type) := {
  of_number : Q -> F;
  finf : F;
  fadd : F -> F -> F;
  fmul : F -> F -> F;
  fdiv : F -> F -> F;
  fsqrt : F -> F;
  flog : F -> F;
  fgt : F -> F -> bool
}.

(** A node object. Objects are referred to by their address in a store;
    [parent] and [children] hold addresses. *)
Record MCTSNode := mkNode {
  parent : option nat;
  action_path : list Action;
  children : list nat;
  total : Q;
  visits : nat
}.

(** The store of node objects: the address of a node is its position,
    and a new object takes the next free position. *)
Abbreviation Store := (list MCTSNode).

(** [MCTSNode()] *)
Definition root_node : MCTSNode := mkNode None [] [] 0%Q 0.

(** The node after [self.total += value; self.visits += 1]. *)
Definition bump (value : Q) (n : MCTSNode) : MCTSNode :=
  mkNode (parent n) (action_path n) (children n)
         (total n + value)%Q (S (visits n)).

Definition add_child (c : nat) (n : MCTSNode) : MCTSNode :=
  mkNode (parent n) (action_path n) (children n ++ [c]) (total n) (visits n).

(** [MCTSNode.expand]; [None] when [self] is not an address of the
    store. *)
Fixpoint expand (h : Store) (self : nat) (actions : list Action)
  : option Store :=
  match actions with
  | [] => Some h
  | action :: rest =>
      match h !! self with
      | None => None
      | Some n =>
          let child := mkNode (Some self) (action_path n ++ [action])
                              [] 0%Q 0 in
          expand (<[self := add_child (length h) n]> (h ++ [child]))
                 self rest
      end
  end.

(** [MCTSNode.backpropogate]. Each unit of fuel pays for one call;
    [None] when the fuel runs out or an address is not in the store. *)
Fixpoint backpropogate (fuel : nat) (h : Store) (self : nat) (value : Q)
  : option Store :=
  match fuel with
  | O => None
  | S fuel' =>
      match h !! self with
      | None => None
      | Some n =>
          let h1 := <[self := bump value n]> h in
          match parent n with
          | Some p => backpropogate fuel' h1 p value
          | None => Some h1
          end
      end
  end.

Section Selection.

Context {F : Type} {ops : FloatOps F}.

Definition CURIOSITY_FACTOR : F := of_number (7 # 2).

(** [MCTSNode.score] *)
Definition score (n : MCTSNode) : F :=
  if (visits n =? 0)%nat then of_number 0
  else fdiv (fmul (of_number (total n)) (of_number 1))
            (of_number (inject_Z (Z.of_nat (visits n)))).

(** [MCTSNode.ucb1]. The iteration count is a positive number, as at
    its call sites; [math.log] is not defined below that. *)
Definition ucb1 (n : MCTSNode) (num_iterations : positive) : F :=
  if (visits n =? 0)%nat then finf
  else fadd (score n)
            (fmul CURIOSITY_FACTOR
                  (fsqrt (fdiv (flog (of_number (inject_Z (Zpos num_iterations))))
                               (of_number (inject_Z (Z.of_nat (visits n))))))).

(** The [for candidate in self.children] loop of [select_child]; [best]
    holds [max] and [max_ucb1]. The outer [None] is an address that is
    not in the store, the inner one is Python's [None]. *)
Fixpoint select_loop (h : Store) (num_iterations : positive)
    (candidates : list nat) (best : option (nat * F)) : option (option nat) :=
  match candidates with
  | [] => Some (fst <$> best)
  | candidate :: rest =>
      match h !! candidate with
      | None => None
      | Some cn =>
          if (visits cn =? 0)%nat then Some (Some candidate)
          else
            let u := ucb1 cn num_iterations in
            if match best with
               | None => true
               | Some (_, max_ucb1) => fgt u max_ucb1
               end
            then select_loop h num_iterations rest (Some (candidate, u))
            else select_loop h num_iterations rest best
      end
  end.

(** [MCTSNode.select_child] *)
Definition select_child (h : Store) (self : nat) (num_iterations : positive)
  : option (option nat) :=
  match h !! self with
  | None => None
  | Some n => select_loop h num_iterations (children n) None
  end.

End Selection.

(** *** Vocabulary of the tree properties *)

(** [on_path h i j]: [j] is [i] or one of its ancestors. *)
Inductive on_path (h : Store) : nat -> nat -> Prop :=
| on_path_self i : on_path h i i
| on_path_up i n p j :
    h !! i = Some n -> parent n = Some p -> on_path h p j -> on_path h i j.

(** Parents are older objects than their children, as in every tree
    grown from a root by [expand]. *)
Definition parents_older (h : Store) : Prop :=
  forall i n p, h !! i = Some n -> parent n = Some p -> (p < i)%nat.

Definition is_root (h : Store) (i : nat) : Prop :=
  exists n, h !! i = Some n /\ parent n = None.

(** The children of [n] that are in the store, with their nodes. *)
Definition child_of (h : Store) (n : MCTSNode) (c : nat) (cn : MCTSNode)
  : Prop :=
  In c (children n) /\ h !! c = Some cn.

(** In the loop of [select_child], [best] is a candidate already seen
    that no candidate already seen beats. *)
Definition leads {F : Type} {ops : FloatOps F} (h : Store)
    (num_iterations : positive) (seen : list nat) (best : option (nat * F))
  : Prop :=
  match best with
  | None => seen = []
  | Some (m, u) =>
      In m seen /\
      exists mn, h !! m = Some mn /\ u = ucb1 mn num_iterations /\
        forall c cn, In c seen -> h !! c = Some cn ->
                     fgt (ucb1 cn num_iterations) u = false
  end.

End Tree.
Export Tree.

(** ** Sample cards and games *)

Module Samples.

Definition hearts (r : string) (v : Z) : Card := mkCard "Hearts" r v.
Definition spades (r : string) (v : Z) : Card := mkCard "Spades" r v.

Definition blackjack_hand : list Card :=
  [spades "Ace" 11; spades "King" 10].

(** A player blackjack against a dealer standing on nineteen. *)
Definition blackjack_vs_19 : Game unit :=
  mkGame [] 2 [hearts "10" 10; hearts "9" 9] blackjack_hand tt [].

(** A player blackjack against a dealer who drew to twenty-one. *)
Definition blackjack_vs_21 : Game unit :=
  mkGame [] 2 [hearts "7" 7; hearts "6" 6; hearts "8" 8] blackjack_hand tt [].

(** A player bust against a dealer bust. *)
Definition bust_vs_bust : Game unit :=
  mkGame [] 2 [hearts "10" 10; hearts "6" 6; hearts "9" 9]
         [spades "10" 10; spades "5" 5; spades "8" 8] tt [].

(** The agent answers Split on a hand that may not be split, then
    stands. *)
Definition stray_split : Game Rollout :=
  mkGame [hearts "5" 5] 2 [hearts "10" 10; hearts "9" 9]
         [spades "2" 2; spades "3" 3] (mkRollout [SPLIT; STAND] [] []) [].

(** The agent doubles down on its first call. *)
Definition double_at_once : Game Rollout :=
  mkGame [hearts "5" 5; hearts "7" 7] 2 [hearts "10" 10; hearts "9" 9]
         [spades "2" 2; spades "3" 3] (mkRollout [DOUBLE_DOWN] [] []) [].

(** The agent hits, then doubles down on the three-card hand. *)
Definition double_after_hit : Game Rollout :=
  mkGame [hearts "5" 5; hearts "7" 7; hearts "8" 8] 2
         [hearts "10" 10; hearts "9" 9]
         [spades "2" 2; spades "3" 3] (mkRollout [HIT; DOUBLE_DOWN] [] []) [].

(** A pair of eights is split; the first pile draws to a three-card 21,
    the second stands, and the dealer draws to 21. *)
Definition split_eights : Game Rollout :=
  mkGame [hearts "3" 3; hearts "King" 10; hearts "5" 5] 2
         [hearts "10" 10; hearts "6" 6]
         [hearts "8" 8; spades "8" 8]
         (mkRollout [SPLIT; HIT; HIT; STAND] [] []) [].

Definition three_card_21 : list Card :=
  [hearts "8" 8; hearts "3" 3; hearts "King" 10].

(** Exact arithmetic on the reals with a point at infinity ([None]),
    as an instance of the float operations for the examples. *)
Definition lift2 (f : R -> R -> R) (a b : option R) : option R :=
  match a, b with
  | Some x, Some y => Some (f x y)
  | _, _ => None
  end.

Definition ideal_gt (a b : option R) : bool :=
  match a, b with
  | Some x, Some y => if Rgt_dec x y then true else false
  | None, Some _ => true
  | _, None => false
  end.

#[export] Instance ideal_ops : FloatOps (option R) := {|
  of_number := fun q => Some (Q2R q);
  finf := None;
  fadd := lift2 Rplus;
  fmul := lift2 Rmult;
  fdiv := lift2 Rdiv;
  fsqrt := option_map sqrt;
  flog := option_map ln;
  fgt := ideal_gt
|}.

(** A root expanded with Hit and Stand, the Hit child expanded again,
    one trial recorded on the root and on the Hit child. *)
Definition small_tree : Store :=
  [ mkNode None [] [1; 2]%nat 2%Q 1;
    mkNode (Some 0%nat) [HIT] [3; 4]%nat 2%Q 1;
    mkNode (Some 0%nat) [STAND] [] 0%Q 0;
    mkNode (Some 1%nat) [HIT; HIT] [] 0%Q 0;
    mkNode (Some 1%nat) [HIT; STAND] [] 0%Q 0 ].

(** A deck of nine cards, a hand of two of them, and the randomness of
    six passes of the search over the other cards but the dealer's
    ten: three orders of the deck, each with the draws of the rollout. *)
Definition nine_cards : list Card :=
  [spades "2" 2; spades "3" 3; hearts "10" 10; hearts "5" 5; hearts "7" 7;
   hearts "8" 8; spades "9" 9; spades "King" 10; hearts "4" 4].

Definition low_pair : list Card := [spades "2" 2; spades "3" 3].

Definition order_a : list Card :=
  [hearts "5" 5; hearts "7" 7; hearts "8" 8; spades "9" 9;
   spades "King" 10; hearts "4" 4].

Definition order_b : list Card :=
  [spades "King" 10; hearts "4" 4; hearts "8" 8; spades "9" 9;
   hearts "5" 5; hearts "7" 7].

Definition order_c : list Card :=
  [hearts "8" 8; spades "9" 9; hearts "4" 4; hearts "7" 7;
   spades "King" 10; hearts "5" 5].

Definition six_passes : list (list Card * list nat) :=
  [(order_a, [1%nat]); (order_b, [0%nat; 1%nat]); (order_c, [1%nat]);
   (order_a, [2%nat; 1%nat]); (order_b, [1%nat]);
   (order_c, [0%nat; 1%nat])].

(** The tree of a root offered Hit, Stand and Double-Down, before the
    passes and as the six passes leave it. *)
Definition fresh_tree : Store :=
  [ mkNode None [] [1; 2; 3]%nat 0%Q 0;
    mkNode (Some 0%nat) [HIT] [] 0%Q 0;
    mkNode (Some 0%nat) [STAND] [] 0%Q 0;
    mkNode (Some 0%nat) [DOUBLE_DOWN] [] 0%Q 0 ].

Definition searched_tree : Store :=
  [ mkNode None [] [1; 2; 3]%nat (-14)%Q 6;
    mkNode (Some 0%nat) [HIT] [4; 5; 6]%nat (-2)%Q 2;
    mkNode (Some 0%nat) [STAND] [7; 8; 9]%nat (-4)%Q 2;
    mkNode (Some 0%nat) [DOUBLE_DOWN] [10; 11; 12]%nat (-8)%Q 2;
    mkNode (Some 1%nat) [HIT; HIT] [] (-4)%Q 1;
    mkNode (Some 1%nat) [HIT; STAND] [] 0%Q 0;
    mkNode (Some 1%nat) [HIT; DOUBLE_DOWN] [] 0%Q 0;
    mkNode (Some 2%nat) [STAND; HIT] [] (-2)%Q 1;
    mkNode (Some 2%nat) [STAND; STAND] [] 0%Q 0;
    mkNode (Some 2%nat) [STAND; DOUBLE_DOWN] [] 0%Q 0;
    mkNode (Some 3%nat) [DOUBLE_DOWN; HIT] [] (-4)%Q 1;
    mkNode (Some 3%nat) [DOUBLE_DOWN; STAND] [] 0%Q 0;
    mkNode (Some 3%nat) [DOUBLE_DOWN; DOUBLE_DOWN] [] 0%Q 0 ].

End Samples.
Export Samples.

(** ** Rounds, the unseen deck and the choice of the search agent *)

Module Rounds.

(** [list.remove] on a list of cards: the first item equal to [x] by
    [Card.__eq__] is taken out; [None] is the [ValueError] raised when
    there is none. *)
Fixpoint remove (l : list Card) (x : Card) : option (list Card) :=
  match l with
  | [] => None
  | item :: rest =>
      if card_eqb item x then Some rest
      else match remove rest x with
           | Some rest' => Some (item :: rest')
           | None => None
           end
  end.

(** [for p in cards: deck.remove(p)] *)
Fixpoint remove_all (deck : list Card) (cards : list Card)
  : option (list Card) :=
  match cards with
  | [] => Some deck
  | p :: rest =>
      match remove deck p with
      | Some deck' => remove_all deck' rest
      | None => None
      end
  end.

(** The deck [MCTSPlayer.get_action] simulates with: a copy of its own
    deck without the cards of the hand and the visible dealer cards. *)
Definition unseen_deck (deck cards dealer_cards : list Card)
  : option (list Card) :=
  match remove_all deck cards with
  | Some deck' => remove_all deck' dealer_cards
  | None => None
  end.

Section Rounds.

Context {AgentState : Type}.
Variable agent_get_action :
  AgentState -> list Card -> list Action -> list Card -> Action * AgentState.
Variable agent_reset : AgentState -> AgentState.
Variable split_rule : Card -> Card -> bool.

(** [Game.round]. [random.shuffle] is not modelled: the deck as it is
    after the shuffle is the argument [shuffled]. *)
Definition round (fuel : nat) (shuffled : list Card) (g : Game AgentState)
  : outcome (Game AgentState) Q :=
  let g0 := mkGame shuffled 2 [] [] (agent_reset (agent g)) (asked g) in
  do (p1, g1) <- deal g0 PlayerCards (player_cards g0);
  do (d1, g2) <- deal g1 DealerCards (dealer_cards g1);
  do (p2, g3) <- deal g2 PlayerCards (player_cards g2);
  do (d2, g4) <- deal g3 DealerCards (dealer_cards g3);
  play_round agent_get_action split_rule fuel g4.

(** The loop [while len(self.dealer_cards) < 2] of [continue_round]; it
    runs at most twice, [n] bounds the number of iterations. *)
Fixpoint top_up (n : nat) (g : Game AgentState)
  : outcome (Game AgentState) unit :=
  match n with
  | O => Done tt g
  | S n' =>
      if (length (dealer_cards g) <? 2)%nat then
        do (d, g') <- deal g DealerCards (dealer_cards g);
        top_up n' g'
      else Done tt g
  end.

(** [Game.continue_round], with the shuffled deck as an argument. *)
Definition continue_round (fuel : nat) (shuffled : list Card)
    (player_cards dealer_cards : list Card) (bet : Z) (g : Game AgentState)
  : outcome (Game AgentState) Q :=
  let g0 := mkGame shuffled bet dealer_cards player_cards
                   (agent g) (asked g) in
  do (u, g1) <- top_up 2 g0;
  play_round agent_get_action split_rule fuel g1.

End Rounds.

(** [RolloutPlayer.queue_action] and [RolloutPlayer.reset] *)
Definition queue_action (s : Rollout) (action : Action) : Rollout :=
  mkRollout (queued_actions s ++ [action]) (actions_done s) (draws s).

Definition rollout_reset (s : Rollout) : Rollout :=
  mkRollout [] [] (draws s).

(** [BasicStrategyPlayer.get_action]; [None] is the [IndexError] of
    [dealer_cards[0]] when no dealer card is shown. *)
Definition basic_get_action (cards : list Card) (actions : list Action)
    (dealer_cards : list Card) : option Action :=
  let pval := get_value cards in
  match dealer_cards with
  | [] => None
  | d :: _ =>
      Some (if value d <? 7
            then (if pval <? 12 then HIT else STAND)
            else (if pval <? 17 then HIT else STAND))
  end.

(** [BasicStrategyPlayer] as an agent of [play]. The agents of [play]
    always answer, so this one stands where the source raises; the
    properties below are about games that show a dealer card. *)
Definition basic_agent (s : unit) (cards : list Card)
    (actions : list Action) (dealer_cards : list Card) : Action * unit :=
  (default STAND (basic_get_action cards actions dealer_cards), s).

(** An agent that answers Split whatever it is offered. *)
Definition stubborn_get_action (s : unit) (cards : list Card)
    (actions : list Action) (dealer_cards : list Card) : Action * unit :=
  (SPLIT, s).

Section BestAction.

Context {F : Type} {ops : FloatOps F}.

(** [max(self.children, key=lambda node: node.score())]: the first
    child is kept until a later one has a greater score. The outer
    [None] is an address that is not in the store. *)
Fixpoint max_by_score (h : Store) (candidates : list nat)
    (best : option (nat * F)) : option (option nat) :=
  match candidates with
  | [] => Some (fst <$> best)
  | candidate :: rest =>
      match h !! candidate with
      | None => None
      | Some cn =>
          if match best with
             | None => true
             | Some (_, maxval) => fgt (score cn) maxval
             end
          then max_by_score h rest (Some (candidate, score cn))
          else max_by_score h rest best
      end
  end.

(** [MCTSNode.best_action]; [None] when the call raises: [max] of no
    child ([ValueError]) or [action_path[-1]] of an empty path
    ([IndexError]). *)
Definition best_action (h : Store) (self : nat) : option Action :=
  match h !! self with
  | None => None
  | Some n =>
      match max_by_score h (children n) None with
      | Some (Some c) =>
          match h !! c with
          | Some cn => last (action_path cn)
          | None => None
          end
      | _ => None
      end
  end.

End BestAction.

(** How a call of the search ends: with a value or with an exception;
    [Unfinished] is the end of the fuel of the model, not a behaviour of
    the program. *)
Inductive ending (A : Type) : Type :=
| Returns (a : A)
| Raises
| Unfinished.
Arguments Returns {A} a.
Arguments Raises {A}.
Arguments Unfinished {A}.

Definition is_unfinished {A : Type} (e : ending A) : bool :=
  match e with
  | Unfinished => true
  | _ => false
  end.

Section Planner.

Context {F : Type} {ops : FloatOps F}.

(** [select_child(0)]: [ucb1] of a visited candidate calls
    [math.log(0)], which raises; the outer [None] is that error. *)
Definition select_loop_zero (h : Store) (candidates : list nat)
  : option (option nat) :=
  match candidates with
  | [] => Some None
  | candidate :: rest =>
      match h !! candidate with
      | None => None
      | Some cn =>
          if (visits cn =? 0)%nat then Some (Some candidate) else None
      end
  end.

(** [select_child] with the iteration count as the loop passes it, a
    natural number. *)
Definition select_child_at (h : Store) (self : nat) (i : nat)
  : option (option nat) :=
  match i with
  | O =>
      match h !! self with
      | None => None
      | Some n => select_loop_zero h (children n)
      end
  | S _ => select_child h self (Pos.of_nat i)
  end.

(** The loop [while selected.visits > 0] of [MCTSPlayer.get_action];
    each unit of fuel pays for one iteration. *)
Fixpoint descend (fuel : nat) (h : Store) (selected : nat) (i : nat)
    (actions : list Action) : ending (Store * nat) :=
  match fuel with
  | O => Unfinished
  | S fuel' =>
      match h !! selected with
      | None => Raises
      | Some sn =>
          if (0 <? visits sn)%nat then
            match select_child_at h selected i with
            | None => Raises
            | Some None =>
                match expand h selected actions with
                | Some h' => descend fuel' h' selected i actions
                | None => Raises
                end
            | Some (Some next_selection) =>
                descend fuel' h next_selection i actions
            end
          else Returns (h, selected)
      end
  end.

(** One pass of the body of [for i in range(MCTS_N)]. The randomness of
    the pass is given: the deck as [continue_round] shuffles it and the
    draws of the rollout player. The simulated game uses the default
    split rule, [same_value]. The simulated round gets fuel for the
    queued actions, the deck and two more iterations, and
    [backpropogate] for the whole way up. *)
Definition trial (fuel : nat) (cards dealer_cards : list Card) (bet : Z)
    (actions : list Action) (h : Store) (i : nat)
    (random : list Card * list nat) : ending Store :=
  match select_child_at h 0 (S i) with
  | Some (Some selected) =>
      match descend fuel h selected i actions with
      | Returns (h1, selected) =>
          match h1 !! selected with
          | Some sn =>
              let p := fold_left queue_action (action_path sn)
                                 (mkRollout [] [] (snd random)) in
              let g1 := mkGame [] 0 [] [] p [] in
              match continue_round rollout_get_action same_value
                      (length (action_path sn) + length (fst random) + 2)
                      (fst random) cards dealer_cards bet g1 with
              | Done res _ =>
                  match backpropogate (S selected) h1 selected res with
                  | Some h2 => Returns h2
                  | None => Unfinished
                  end
              | IndexError _ => Raises
              | OutOfFuel _ => Unfinished
              end
          | None => Raises
          end
      | Raises => Raises
      | Unfinished => Unfinished
      end
  | _ => Raises
  end.

(** The [for] loop, one pass per element of [randoms]. *)
Fixpoint trials (fuel : nat) (cards dealer_cards : list Card) (bet : Z)
    (actions : list Action) (h : Store) (i : nat)
    (randoms : list (list Card * list nat)) : ending Store :=
  match randoms with
  | [] => Returns h
  | random :: rest =>
      match trial fuel cards dealer_cards bet actions h i random with
      | Returns h' => trials fuel cards dealer_cards bet actions h' (S i) rest
      | Raises => Raises
      | Unfinished => Unfinished
      end
  end.

(** [MCTSPlayer.get_action]: the answer and the agent's new bet.
    [MCTS_N] is the length of [randoms]; each shuffled deck in it is
    meant to be a permutation of the unseen deck. *)
Definition mcts_get_action (fuel : nat) (deck : list Card) (bet : Z)
    (randoms : list (list Card * list nat))
    (cards : list Card) (actions : list Action) (dealer_cards : list Card)
  : ending (Action * Z) :=
  match unseen_deck deck cards dealer_cards with
  | None => Raises
  | Some _ =>
      match expand [root_node] 0 actions with
      | None => Raises
      | Some h0 =>
          match trials fuel cards dealer_cards bet actions h0 0 randoms with
          | Returns h =>
              match best_action h 0 with
              | None => Raises
              | Some act =>
                  Returns
                    (act,
                     if Action_eqb act DOUBLE_DOWN then bet * 2 else bet)
              end
          | Raises => Raises
          | Unfinished => Unfinished
          end
      end
  end.

End Planner.

(** Exact rational arithmetic with a point at infinity, square root and
    logarithm replaced by the identity: float operations that compute,
    for running the search on examples. *)
Definition exact_gt (a b : option Q) : bool :=
  match a, b with
  | Some x, Some y => if Qlt_le_dec y x then true else false
  | None, Some _ => true
  | _, None => false
  end.

Definition exact_lift2 (f : Q -> Q -> Q) (a b : option Q) : option Q :=
  match a, b with
  | Some x, Some y => Some (f x y)
  | _, _ => None
  end.

#[export] Instance exact_ops : FloatOps (option Q) := {|
  of_number := fun q => Some q;
  finf := None;
  fadd := exact_lift2 Qplus;
  fmul := exact_lift2 Qmult;
  fdiv := exact_lift2 Qdiv;
  fsqrt := fun x => x;
  flog := fun x => x;
  fgt := exact_gt
|}.

(** What a node holds besides its statistics. *)
Definition shape (n : MCTSNode) : list Action * list nat :=
  (action_path n, children n).

(** The children of every node are newer objects of the store. *)
Definition children_newer (h : Store) : Prop :=
  forall i n c, h !! i = Some n -> In c (children n) ->
                (i < c < length h)%nat.

(** The object at address 0 is the only one without a parent. *)
Definition single_root (h : Store) : Prop :=
  forall j n, h !! j = Some n -> parent n = None -> j = 0%nat.

(** [root.visits], for the root at address 0. *)
Definition root_visits (h : Store) : option nat := visits <$> h !! 0%nat.

(** The children of the root are labelled with offered actions. *)
Definition labelled (actions : list Action) (h : Store) : Prop :=
  exists rn,
    h !! 0%nat = Some rn /\ action_path rn = [] /\
    forall c, In c (children rn) ->
      exists cn a, h !! c = Some cn /\ action_path cn = [a] /\ In a actions.

(** *** Vocabulary *)

(** The suit and rank of a card, what [Card.__eq__] looks at. *)
Definition face (c : Card) : string * string := (color c, rank c).

(** A card worth no more than the cards of the game: an ace at most
    11, any other card at most 10. *)
Definition plain_card (c : Card) : Prop :=
  if is_ace c then value c <= 11 else value c <= 10.

(** The number of Double-Down answers in a sequence of calls. *)
Definition doubles (calls : list Query) : nat :=
  length (List.filter (fun q => Action_eqb (q_answer q) DOUBLE_DOWN) calls).

(** An agent with a bound on its answers outside the offered actions:
    [budget] never grows, and it shrinks with every such answer. *)
Definition bounded_strays {AgentState : Type}
    (agent_get_action :
       AgentState -> list Card -> list Action -> list Card
       -> Action * AgentState)
    (split_rule : Card -> Card -> bool)
    (budget : AgentState -> nat) : Prop :=
  forall s cards cansplit seen,
    let actions := legal_actions split_rule cards cansplit in
    let '(act, s') := agent_get_action s cards actions seen in
    (budget s' <= budget s)%nat /\
    (In act actions \/ (budget s' < budget s)%nat).

Definition is_out_of_fuel {G A : Type} (m : outcome G A) : bool :=
  match m with
  | OutOfFuel _ => true
  | _ => false
  end.

(** In the loop of [max], [best] is a candidate already seen whose score
    no candidate already seen exceeds. *)
Definition leads_by_score {F : Type} {ops : FloatOps F} (h : Store)
    (seen : list nat) (best : option (nat * F)) : Prop :=
  match best with
  | None => seen = []
  | Some (m, v) =>
      In m seen /\
      exists mn, h !! m = Some mn /\ v = score mn /\
        forall c cn, In c seen -> h !! c = Some cn ->
                     fgt (score cn) v = false
  end.

End Rounds.
Export Rounds.

(** ** Properties of [get_value] *)

Section GetValue.

Lemma tally_acc cards : forall result aces,
  tally cards result aces
  = (result + raw_sum cards, (aces + count_aces cards)%nat).
Proof.
  induction cards as [|c cs IH]; intros result aces; simpl.
  - f_equal; lia.
  - rewrite IH. destruct (is_ace c); f_equal; lia.
Qed.

Lemma get_value_unfold cards :
  get_value cards = soften (raw_sum cards) (count_aces cards).
Proof.
  unfold get_value. rewrite tally_acc. reflexivity.
Qed.

Lemma soften_spec aces : forall result,
  exists k : nat,
    (k <= aces)%nat /\
    soften result aces = result - 10 * Z.of_nat k /\
    (forall j : nat, (j < k)%nat -> 21 < result - 10 * Z.of_nat j) /\
    ((k < aces)%nat -> soften result aces <= 21).
Proof.
  induction aces as [|a IH]; intros result; simpl.
  - exists 0%nat. repeat split; try lia.
  - destruct (21 <? result) eqn:Hgt.
    + apply Z.ltb_lt in Hgt.
      destruct (IH (result - 10)) as (k & Hk & Hv & Hall & Hle).
      exists (S k). repeat split; try lia.
      * intros j Hj. destruct j as [|j]; [lia|].
        specialize (Hall j ltac:(lia)). lia.
    + apply Z.ltb_ge in Hgt.
      exists 0%nat. repeat split; try lia.
Qed.

Lemma raw_sum_ace_high cards :
  aces_worth_eleven cards -> raw_sum cards = ace_high_sum cards.
Proof.
  induction 1 as [|c cs Hc _ IH]; simpl; [reflexivity|].
  rewrite IH. unfold ace_high. destruct (is_ace c); [rewrite Hc|]; reflexivity.
Qed.

Lemma count_aces_none cards :
  (forall c, In c cards -> rank c <> "Ace"%string) -> count_aces cards = 0%nat.
Proof.
  induction cards as [|c cs IH]; intros Hno; simpl; [reflexivity|].
  unfold is_ace. destruct (String.eqb_spec (rank c) "Ace") as [He|_].
  - exfalso. apply (Hno c); [left; reflexivity | exact He].
  - apply IH. intros c' Hin. apply Hno. right. exact Hin.
Qed.

Lemma default_deck_aces :
  aces_worth_eleven (generate_deck default_suits default_ranks).
Proof.
  unfold aces_worth_eleven.
  repeat constructor; simpl; intros H; (reflexivity || discriminate H).
Qed.

Example ace_six : get_value [spades "Ace" 11; hearts "6" 6] = 17.
Proof. reflexivity. Qed.

Example ace_ace_nine :
  get_value [spades "Ace" 11; hearts "Ace" 11; hearts "9" 9] = 21.
Proof. reflexivity. Qed.

(** C4. [get_value] is the sum of the card values minus ten times a
    number [k] of aces: [k] is at most the number of aces of the hand,
    each of the [k] reductions was made on a sum above 21, and unless
    all aces are used up the result is at most 21. When the aces of the
    hand are worth eleven, the sum of the card values is the sum with
    every ace counted as eleven. A hand with no ace is worth the raw sum
    of its card values. *)
Theorem get_value_soft_hard (cards : list Card) :
  (exists k : nat,
     (k <= count_aces cards)%nat /\
     get_value cards = raw_sum cards - 10 * Z.of_nat k /\
     (forall j : nat,
        (j < k)%nat -> 21 < raw_sum cards - 10 * Z.of_nat j) /\
     ((k < count_aces cards)%nat -> get_value cards <= 21)) /\
  (aces_worth_eleven cards -> raw_sum cards = ace_high_sum cards) /\
  ((forall c, In c cards -> rank c <> "Ace"%string) ->
   get_value cards = raw_sum cards).
Proof.
  split; [|split].
  - rewrite get_value_unfold. apply soften_spec.
  - apply raw_sum_ace_high.
  - intros Hno. rewrite get_value_unfold, (count_aces_none cards Hno).
    reflexivity.
Qed.

End GetValue.

(** ** Properties of [reward] *)

Section Reward.

Context {AgentState : Type}.
Implicit Types (g : Game AgentState) (hand : list Card).

(** Whenever the win test holds on a hand that is not bust, the result
    is the bet: the assignment of the bonus is overwritten. *)
Lemma reward_win g hand :
  get_value hand <= 21 ->
  get_value (dealer_cards g) < get_value hand \/
  21 < get_value (dealer_cards g) ->
  reward g hand = inject_Z (bet g).
Proof.
  intros Hle Hwin. unfold reward.
  destruct (Z.ltb_spec 21 (get_value hand)); [lia|].
  replace ((get_value (dealer_cards g) <? get_value hand)
           || (21 <? get_value (dealer_cards g))) with true
    by (symmetry; apply orb_true_iff; destruct Hwin;
        [left; apply Z.ltb_lt | right; apply Z.ltb_lt]; assumption).
  destruct (Z.eqb_spec (get_value hand) (get_value (dealer_cards g)));
    [lia|reflexivity].
Qed.

(** A tie at 21: a push unless the stored player hand has two cards, in
    which case neither the win test nor the push test holds. *)
Lemma reward_tie_21 g hand :
  get_value hand = 21 ->
  get_value (dealer_cards g) = 21 ->
  reward g hand
  = if (length (player_cards g) =? 2)%nat then inject_Z (- bet g) else 0%Q.
Proof.
  intros Hp Hd. unfold reward. rewrite Hp, Hd. simpl.
  destruct (length (player_cards g) =? 2)%nat; reflexivity.
Qed.

(** The hand being settled enters [reward] through its value only. *)
Lemma reward_value_only g hand hand' :
  get_value hand' = get_value hand -> reward g hand' = reward g hand.
Proof.
  intros He. unfold reward. rewrite He. reflexivity.
Qed.

(** C9. A player hand above 21 is settled at minus the bet, whatever the
    dealer holds. *)
Theorem reward_bust g hand :
  21 < get_value hand -> reward g hand = inject_Z (- bet g).
Proof.
  intros Hbust. unfold reward.
  destruct (Z.ltb_spec 21 (get_value hand)); [reflexivity|lia].
Qed.

End Reward.

Lemma reward_bust_witness :
  21 < get_value (player_cards bust_vs_bust) /\
  21 < get_value (dealer_cards bust_vs_bust) /\
  reward bust_vs_bust (player_cards bust_vs_bust) = inject_Z (- 2).
Proof.
  split; [reflexivity|]. split; [reflexivity|].
  apply (reward_bust bust_vs_bust (player_cards bust_vs_bust)).
  reflexivity.
Defined.

(** C1. The 3:2 payout of a natural blackjack is not made: a two-card
    21 that beats a dealer 19 with a bet of 2 is paid 2, the bet, and
    not 3. *)
Theorem blackjack_win_pays_one_bet :
  get_value blackjack_hand = 21 /\
  length (player_cards blackjack_vs_19) = 2%nat /\
  get_value (dealer_cards blackjack_vs_19) = 19 /\
  reward blackjack_vs_19 blackjack_hand = inject_Z (bet blackjack_vs_19) /\
  ~ (reward blackjack_vs_19 blackjack_hand
     == inject_Z (3 * bet blackjack_vs_19) / 2)%Q.
Proof.
  repeat split; try reflexivity.
  intros H. vm_compute in H. discriminate H.
Qed.

(** C2. A natural blackjack that ties a dealer 21 does not go through
    the win branch: with a bet of 2 it is settled at -2, neither paid as
    a win nor pushed. *)
Theorem blackjack_tie_loses_bet :
  get_value blackjack_hand = 21 /\
  length (player_cards blackjack_vs_21) = 2%nat /\
  get_value (dealer_cards blackjack_vs_21) = 21 /\
  reward blackjack_vs_21 blackjack_hand = inject_Z (- bet blackjack_vs_21) /\
  ~ (0 <= reward blackjack_vs_21 blackjack_hand)%Q.
Proof.
  repeat split; try reflexivity.
  intros H. vm_compute in H. apply H. reflexivity.
Qed.

(** ** Properties of [play] *)

Section Play.

Context {AgentState : Type}.
Variable agent_get_action :
  AgentState -> list Card -> list Action -> list Card -> Action * AgentState.
Variable split_rule : Card -> Card -> bool.

Implicit Types (g : Game AgentState) (cards : list Card) (r : HandRef).

#[local] Arguments Engine.legal_actions : simpl never.
#[local] Arguments Engine.action_in : simpl never.
#[local] Arguments Engine.get_action : simpl never.
#[local] Arguments Engine.deal : simpl never.
#[local] Arguments get_value : simpl never.

Local Abbreviation get_action := (get_action agent_get_action).
Local Abbreviation legal_actions := (legal_actions split_rule).
Local Abbreviation play := (play agent_get_action split_rule).

Lemma action_in_spec act actions :
  action_in act actions = true <-> In act actions.
Proof.
  unfold action_in. rewrite existsb_exists. split.
  - intros (x & Hin & He). destruct act, x; try discriminate He; exact Hin.
  - intros Hin. exists act. split; [exact Hin | destruct act; reflexivity].
Qed.

Lemma double_down_always_offered cards cansplit :
  In DOUBLE_DOWN (legal_actions cards cansplit).
Proof.
  unfold legal_actions. apply in_or_app. left. simpl. tauto.
Qed.

Lemma split_legal_iff cards cansplit :
  In SPLIT (legal_actions cards cansplit) <->
  (length cards = 2%nat /\ cansplit = true /\
   exists a b, cards = [a; b] /\ split_rule a b = true).
Proof.
  unfold legal_actions. split.
  - intros Hin. apply in_app_or in Hin. destruct Hin as [Hin|Hin].
    { simpl in Hin. intuition discriminate. }
    destruct cards as [|a [|b [|c cs]]]; simpl in Hin; try contradiction.
    destruct cansplit; simpl in Hin; [|contradiction].
    destruct (split_rule a b) eqn:Hr; [|contradiction].
    split; [reflexivity|]. split; [reflexivity|]. exists a, b. tauto.
  - intros (_ & -> & a & b & -> & Hr). apply in_or_app. right.
    simpl. rewrite Hr. simpl. tauto.
Qed.

(** A call of [get_action] changes the state of the agent and the
    record of calls, nothing else. *)
Lemma get_action_frame who g cards actions act g1 :
  get_action who g cards actions = (act, g1) ->
  deck g1 = deck g /\ bet g1 = bet g /\
  dealer_cards g1 = dealer_cards g /\ player_cards g1 = player_cards g /\
  asked g1
  = asked g ++ [mkQuery who cards actions (take 1 (dealer_cards g)) act].
Proof.
  unfold Engine.get_action. destruct who.
  - destruct (agent_get_action _ _ _ _) as [a s]. intros [= <- <-].
    simpl. tauto.
  - intros [= <- <-]. simpl. tauto.
Qed.

Lemma store_asked r cards g : asked (store r cards g) = asked g.
Proof. destruct r; reflexivity. Qed.

Lemma deal_asked g r cards : asked (game_of (deal g r cards)) = asked g.
Proof.
  unfold deal. destruct (deck g); simpl; [reflexivity|].
  rewrite store_asked. reflexivity.
Qed.

Lemma split_discipline_false_app calls calls' :
  split_discipline split_rule false calls ->
  split_discipline split_rule false calls' ->
  split_discipline split_rule false (calls ++ calls').
Proof.
  induction calls as [|q rest IH]; simpl; [tauto|].
  intros [Hq Hrest] H'. split; [exact Hq | apply IH; assumption].
Qed.

Lemma split_offer_query who cards cansplit seen act :
  split_offer split_rule cansplit
    (mkQuery who cards (legal_actions cards cansplit) seen act).
Proof. unfold split_offer. simpl. apply split_legal_iff. Qed.

(** The calls a run of [play] makes, whatever way it ends, keep the
    split discipline. *)
Lemma play_calls fuel : forall who r g cards cansplit,
  exists calls,
    asked (game_of (play fuel who r g cards cansplit)) = asked g ++ calls /\
    split_discipline split_rule cansplit calls.
Proof.
  induction fuel as [|fuel IH]; intros who r g cards cansplit; simpl.
  { exists []. rewrite app_nil_r. split; [reflexivity | exact I]. }
  destruct (get_value cards <? 21).
  2:{ exists []. rewrite app_nil_r. split; [reflexivity | exact I]. }
  destruct (get_action who g cards (legal_actions cards cansplit))
    as [act g1] eqn:Hga.
  destruct (get_action_frame _ _ _ _ _ _ Hga) as (Hdk & _ & _ & _ & Hlog).
  set (q := mkQuery who cards (legal_actions cards cansplit)
                    (take 1 (dealer_cards g)) act) in *.
  assert (Hq : split_offer split_rule cansplit q)
    by apply split_offer_query.
  destruct (action_in act (legal_actions cards cansplit)) eqn:Hin.
  - destruct act.
    + (* HIT *)
      pose proof (deal_asked g1 r cards) as Hd.
      destruct (deal g1 r cards) as [cards' g2|g2|g2]; simpl in *.
      * destruct (IH who r g2 cards' cansplit) as (calls & Hc & Hdisc).
        exists (q :: calls). rewrite Hc, Hd, Hlog, <- app_assoc.
        split; [reflexivity|]. simpl. split; [exact Hq|].
        rewrite andb_true_r. exact Hdisc.
      * exists [q]. rewrite Hd, Hlog. simpl. tauto.
      * exists [q]. rewrite Hd, Hlog. simpl. tauto.
    + (* STAND *)
      exists [q]. simpl. rewrite Hlog. simpl. tauto.
    + (* DOUBLE_DOWN *)
      pose proof (deal_asked g1 r cards) as Hd.
      destruct (deal g1 r cards) as [cards' g2|g2|g2]; simpl in *;
        exists [q]; rewrite Hd, Hlog; simpl; tauto.
    + (* SPLIT *)
      assert (Htook : took_split q = true).
      { unfold took_split. simpl. exact Hin. }
      destruct (IH who Pile g1 (take 1 cards) false) as (ca & Hca & Hda).
      destruct (play fuel who Pile g1 (take 1 cards) false)
        as [ra g2|g2|g2]; simpl in *.
      * destruct (IH who Pile g2 (drop 1 cards) false) as (cb & Hcb & Hdb).
        exists (q :: ca ++ cb). split.
        -- destruct (play fuel who Pile g2 (drop 1 cards) false)
             as [rb g3|g3|g3]; simpl in *;
             rewrite Hcb, Hca, Hlog, <- !app_assoc; reflexivity.
        -- simpl. split; [exact Hq|]. rewrite Htook, andb_false_r.
           apply split_discipline_false_app; assumption.
      * exists (q :: ca). rewrite Hca, Hlog, <- app_assoc.
        split; [reflexivity|]. simpl. split; [exact Hq|].
        rewrite Htook, andb_false_r. exact Hda.
      * exists (q :: ca). rewrite Hca, Hlog, <- app_assoc.
        split; [reflexivity|]. simpl. split; [exact Hq|].
        rewrite Htook, andb_false_r. exact Hda.
  - (* an action outside the offered ones *)
    destruct (IH who r g1 cards cansplit) as (calls & Hc & Hdisc).
    exists (q :: calls). rewrite Hc, Hlog, <- app_assoc.
    split; [reflexivity|]. simpl. split; [exact Hq|].
    replace (took_split q) with false; [rewrite andb_true_r; exact Hdisc|].
    unfold took_split. simpl. destruct act; try reflexivity.
    simpl. symmetry. exact Hin.
Qed.

(** The first call of a run that enters the loop. *)
Lemma play_first_call fuel who r g cards cansplit :
  get_value cards < 21 ->
  exists act rest,
    asked (game_of (play (S fuel) who r g cards cansplit))
    = asked g ++ mkQuery who cards (legal_actions cards cansplit)
                         (take 1 (dealer_cards g)) act :: rest.
Proof.
  intros Hlt. simpl. apply Z.ltb_lt in Hlt. rewrite Hlt.
  destruct (get_action who g cards (legal_actions cards cansplit))
    as [act g1] eqn:Hga.
  destruct (get_action_frame _ _ _ _ _ _ Hga) as (_ & _ & _ & _ & Hlog).
  exists act.
  assert (Hgo : forall m : outcome (Game AgentState)
                                   (list (list Card) * list Card),
            (exists t, asked (game_of m) = asked g1 ++ t) ->
            exists rest,
              asked (game_of m)
              = asked g ++ mkQuery who cards (legal_actions cards cansplit)
                                   (take 1 (dealer_cards g)) act :: rest).
  { intros m [t Ht]. exists t. rewrite Ht, Hlog, <- app_assoc. reflexivity. }
  apply Hgo.
  destruct (action_in act (legal_actions cards cansplit)).
  - destruct act.
    + pose proof (deal_asked g1 r cards) as Hd.
      destruct (deal g1 r cards) as [cards' g2|g2|g2]; simpl in *.
      * destruct (play_calls fuel who r g2 cards' cansplit) as (t & Ht & _).
        exists t. rewrite Ht, Hd. reflexivity.
      * exists []. rewrite Hd, app_nil_r. reflexivity.
      * exists []. rewrite Hd, app_nil_r. reflexivity.
    + exists []. simpl. rewrite app_nil_r. reflexivity.
    + pose proof (deal_asked g1 r cards) as Hd.
      destruct (deal g1 r cards) as [cards' g2|g2|g2]; simpl in *;
        exists []; rewrite Hd, app_nil_r; reflexivity.
    + destruct (play_calls fuel who Pile g1 (take 1 cards) false)
        as (ta & Hta & _).
      destruct (play fuel who Pile g1 (take 1 cards) false)
        as [ra g2|g2|g2]; simpl in *; try (exists ta; exact Hta).
      destruct (play_calls fuel who Pile g2 (drop 1 cards) false)
        as (tb & Htb & _).
      exists (ta ++ tb).
      destruct (play fuel who Pile g2 (drop 1 cards) false)
        as [rb g3|g3|g3]; simpl in *; rewrite Htb, Hta, <- app_assoc;
        reflexivity.
  - destruct (play_calls fuel who r g1 cards cansplit) as (t & Ht & _).
    exists t. exact Ht.
Qed.

(** After a Split was taken, no later call offers Split. *)
Lemma split_discipline_after_split permitted calls : forall pre q post,
  split_discipline split_rule permitted calls ->
  calls = pre ++ q :: post ->
  took_split q = true ->
  Forall (fun q' => ~ In SPLIT (q_actions q')) post.
Proof.
  assert (Hfalse : forall post,
            split_discipline split_rule false post ->
            Forall (fun q' => ~ In SPLIT (q_actions q')) post).
  { induction post as [|q' post IH]; simpl; [constructor|].
    intros [Hq Hrest]. constructor; [|apply IH; exact Hrest].
    intros Hin. apply Hq in Hin. destruct Hin as (_ & Hp & _).
    discriminate Hp. }
  intros pre. revert permitted calls.
  induction pre as [|p pre IH]; intros permitted calls q post Hd -> Htook.
  - simpl in Hd. destruct Hd as [_ Hd]. rewrite Htook, andb_false_r in Hd.
    apply Hfalse. exact Hd.
  - simpl in Hd. destruct Hd as [_ Hd].
    eapply IH; [exact Hd | reflexivity | exact Htook].
Qed.

(** C5. The calls made by a run of the per-hand loop are appended to
    the record; in each of them Split is offered if and only if the hand
    has exactly two cards, splitting is still permitted and the split
    rule holds on the two cards, where the permission is the one the
    hand was given and is withdrawn once a Split is taken; hence no call
    after a taken Split offers Split. *)
Theorem split_offered_iff_permitted fuel who r g cards cansplit :
  exists calls,
    asked (game_of (play fuel who r g cards cansplit)) = asked g ++ calls /\
    split_discipline split_rule cansplit calls /\
    (forall pre q post,
       calls = pre ++ q :: post -> took_split q = true ->
       Forall (fun q' => ~ In SPLIT (q_actions q')) post) /\
    (In SPLIT (legal_actions cards cansplit) <->
     length cards = 2%nat /\ cansplit = true /\
     exists a b, cards = [a; b] /\ split_rule a b = true).
Proof.
  destruct (play_calls fuel who r g cards cansplit) as (calls & Hlog & Hd).
  exists calls. split; [exact Hlog|]. split; [exact Hd|]. split.
  - intros pre q post He Htook.
    exact (split_discipline_after_split _ _ _ _ _ Hd He Htook).
  - apply split_legal_iff.
Qed.

(** C6. When the agent answers with an action outside the offered ones,
    the iteration deals no card and leaves the bet and both hands as
    they were, the run goes on as the loop entered again on the same
    hand, and the next call is made on the same cards with the same
    offered actions. *)
Theorem illegal_action_is_ignored fuel who r g cards cansplit act g1 :
  get_value cards < 21 ->
  get_action who g cards (legal_actions cards cansplit) = (act, g1) ->
  ~ In act (legal_actions cards cansplit) ->
  (deck g1 = deck g /\ bet g1 = bet g /\
   dealer_cards g1 = dealer_cards g /\ player_cards g1 = player_cards g) /\
  play (S fuel) who r g cards cansplit = play fuel who r g1 cards cansplit /\
  exists act' rest,
    asked (game_of (play (S (S fuel)) who r g cards cansplit))
    = asked g
      ++ mkQuery who cards (legal_actions cards cansplit)
                 (take 1 (dealer_cards g)) act
      :: mkQuery who cards (legal_actions cards cansplit)
                 (take 1 (dealer_cards g)) act'
      :: rest.
Proof.
  intros Hlt Hga Hout.
  destruct (get_action_frame _ _ _ _ _ _ Hga) as (Hdk & Hb & Hdc & Hpc & Hlog).
  assert (Hin : action_in act (legal_actions cards cansplit) = false).
  { destruct (action_in act (legal_actions cards cansplit)) eqn:E;
      [|reflexivity].
    apply action_in_spec in E. contradiction. }
  assert (Hstep : forall n,
            play (S n) who r g cards cansplit = play n who r g1 cards cansplit).
  { intros n. simpl. rewrite (proj2 (Z.ltb_lt _ _) Hlt), Hga, Hin.
    reflexivity. }
  split; [tauto|]. split; [apply Hstep|].
  rewrite Hstep.
  destruct (play_first_call fuel who r g1 cards cansplit Hlt)
    as (act' & rest & Hnext).
  exists act', rest. rewrite Hnext, Hlog, Hdc, <- app_assoc. reflexivity.
Qed.

(** C3, as the code has it. Double-Down is among the offered actions of
    every iteration, whatever the number of cards of the hand; when it
    is taken and the deck is not empty, the hand gets the first card of
    the deck and no other, the bet is doubled, and the run of the hand
    ends there with that hand. *)
Theorem double_down_one_card_then_stop
    fuel who r g cards cansplit g1 card rest :
  get_value cards < 21 ->
  get_action who g cards (legal_actions cards cansplit) = (DOUBLE_DOWN, g1) ->
  deck g = card :: rest ->
  In DOUBLE_DOWN (legal_actions cards cansplit) /\
  exists gf,
    play (S fuel) who r g cards cansplit
    = Done ([cards ++ [card]], cards ++ [card]) gf /\
    bet gf = bet g * 2 /\ deck gf = rest.
Proof.
  intros Hlt Hga Hdeck.
  destruct (get_action_frame _ _ _ _ _ _ Hga) as (Hdk & Hb & _ & _ & _).
  split; [apply double_down_always_offered|].
  simpl. rewrite (proj2 (Z.ltb_lt _ _) Hlt), Hga.
  rewrite (proj2 (action_in_spec _ _)
             (double_down_always_offered cards cansplit)).
  unfold deal. rewrite Hdk, Hdeck. simpl.
  eexists. split; [reflexivity|].
  destruct r; simpl; rewrite Hb; split; reflexivity.
Qed.

(** *** The stored player hand across a round *)

Lemma deal_player_cards_other g r cards :
  r <> PlayerCards ->
  player_cards (game_of (deal g r cards)) = player_cards g.
Proof.
  intros Hr. unfold deal. destruct (deck g); simpl; [reflexivity|].
  destruct r; [contradiction | reflexivity | reflexivity].
Qed.

(** A run on a list other than the one held in [self.player_cards]
    leaves that field as it is. *)
Lemma play_player_cards_other fuel : forall who r g cards cansplit,
  r <> PlayerCards ->
  player_cards (game_of (play fuel who r g cards cansplit)) = player_cards g.
Proof.
  induction fuel as [|fuel IH]; intros who r g cards cansplit Hr; simpl;
    [reflexivity|].
  destruct (get_value cards <? 21); [|reflexivity].
  destruct (get_action who g cards (legal_actions cards cansplit))
    as [act g1] eqn:Hga.
  destruct (get_action_frame _ _ _ _ _ _ Hga) as (_ & _ & _ & Hpc & _).
  destruct (action_in act (legal_actions cards cansplit)).
  - destruct act.
    + pose proof (deal_player_cards_other g1 r cards Hr) as Hd.
      destruct (deal g1 r cards) as [cards' g2|g2|g2]; simpl in *;
        [rewrite (IH who r g2 cards' cansplit Hr)|..]; congruence.
    + simpl. exact Hpc.
    + pose proof (deal_player_cards_other g1 r cards Hr) as Hd.
      destruct (deal g1 r cards) as [cards' g2|g2|g2]; simpl in *;
        congruence.
    + assert (Hp : Pile <> PlayerCards) by discriminate.
      pose proof (IH who Pile g1 (take 1 cards) false Hp) as Ha.
      destruct (play fuel who Pile g1 (take 1 cards) false)
        as [ra g2|g2|g2]; simpl in *; try congruence.
      pose proof (IH who Pile g2 (drop 1 cards) false Hp) as Hb.
      destruct (play fuel who Pile g2 (drop 1 cards) false)
        as [rb g3|g3|g3]; simpl in *; congruence.
  - rewrite (IH who r g1 cards cansplit Hr). exact Hpc.
Qed.

(** A run on the list held in [self.player_cards]: the field follows the
    list, and a result of two hands leaves the two-card list that was
    split. *)
Lemma play_player_cards_alias fuel : forall who g cards cansplit res c gf,
  player_cards g = cards ->
  play fuel who PlayerCards g cards cansplit = Done (res, c) gf ->
  player_cards gf = c /\
  (res = [c] \/ (exists a b, res = [a; b]) /\ length c = 2%nat).
Proof.
  induction fuel as [|fuel IH]; intros who g cards cansplit res c gf Hal;
    simpl; [discriminate|].
  destruct (get_value cards <? 21).
  2:{ intros [= <- <- <-]. split; [exact Hal | left; reflexivity]. }
  destruct (get_action who g cards (legal_actions cards cansplit))
    as [act g1] eqn:Hga.
  destruct (get_action_frame _ _ _ _ _ _ Hga) as (_ & _ & _ & Hpc & _).
  destruct (action_in act (legal_actions cards cansplit)) eqn:Hin.
  - destruct act.
    + unfold deal. destruct (deck g1) as [|card rest]; simpl;
        [discriminate|].
      apply IH. reflexivity.
    + intros [= <- <- <-]. split; [congruence | left; reflexivity].
    + unfold deal. destruct (deck g1) as [|card rest]; simpl;
        [discriminate|].
      intros [= <- <- <-]. split; [reflexivity | left; reflexivity].
    + assert (Hp : Pile <> PlayerCards) by discriminate.
      pose proof (play_player_cards_other fuel who Pile g1 (take 1 cards)
                    false Hp) as Ha.
      destruct (play fuel who Pile g1 (take 1 cards) false)
        as [ra g2|g2|g2]; simpl in *; try discriminate.
      pose proof (play_player_cards_other fuel who Pile g2 (drop 1 cards)
                    false Hp) as Hb.
      destruct (play fuel who Pile g2 (drop 1 cards) false)
        as [rb g3|g3|g3]; simpl in *; try discriminate.
      intros [= <- <- <-]. split; [congruence|]. right.
      split; [eauto|].
      apply action_in_spec, split_legal_iff in Hin. tauto.
  - apply IH. congruence.
Qed.

(** C10. A hand worth 21 is settled from its value, the value of the
    dealer's hand and the number of cards of the stored player hand; its
    own number of cards plays no part. After a split (the player's run
    returns two hands) and the dealer's run, the stored player hand is
    still the two-card list that was split, so every hand worth 21 loses
    the bet against a dealer 21 and wins it otherwise. *)
Theorem reward_21_reads_stored_hand (hand : list Card) :
  get_value hand = 21 ->
  (forall g,
     reward g hand
     = if get_value (dealer_cards g) =? 21
       then (if (length (player_cards g) =? 2)%nat
             then inject_Z (- bet g) else 0%Q)
       else inject_Z (bet g)) /\
  (forall g hand', get_value hand' = 21 -> reward g hand' = reward g hand) /\
  (forall fuel fuel' g a b c g1 rd g2,
     play fuel ThePlayer PlayerCards g (player_cards g) true
     = Done ([a; b], c) g1 ->
     play fuel' TheDealer DealerCards g1 (dealer_cards g1) true
     = Done rd g2 ->
     player_cards g2 = c /\ length (player_cards g2) = 2%nat /\
     reward g2 hand
     = if get_value (dealer_cards g2) =? 21
       then inject_Z (- bet g2) else inject_Z (bet g2)).
Proof.
  intros H21.
  assert (Hgen : forall g,
     reward g hand
     = if get_value (dealer_cards g) =? 21
       then (if (length (player_cards g) =? 2)%nat
             then inject_Z (- bet g) else 0%Q)
       else inject_Z (bet g)).
  { intros g. destruct (Z.eqb_spec (get_value (dealer_cards g)) 21) as [Hd|Hd].
    - apply reward_tie_21; assumption.
    - apply reward_win; lia. }
  split; [exact Hgen|]. split.
  - intros g hand' H'. apply reward_value_only. congruence.
  - intros fuel fuel' g a b c g1 rd g2 Hp Hd.
    destruct (play_player_cards_alias _ _ _ _ _ _ _ _ eq_refl Hp)
      as [Hc [Hone|[_ Hlen]]]; [discriminate Hone|].
    assert (Hkeep : player_cards g2 = player_cards g1).
    { pose proof (play_player_cards_other fuel' TheDealer DealerCards g1
                    (dealer_cards g1) true ltac:(discriminate)) as Hk.
      rewrite Hd in Hk. exact Hk. }
    split; [congruence|]. split; [congruence|].
    rewrite Hgen. replace (length (player_cards g2)) with 2%nat by congruence.
    reflexivity.
Qed.

End Play.

Lemma illegal_action_is_ignored_witness :
  get_value (player_cards stray_split) < 21 /\
  ~ In SPLIT (legal_actions same_value (player_cards stray_split) true) /\
  exists g1,
    get_action rollout_get_action ThePlayer stray_split
               (player_cards stray_split)
               (legal_actions same_value (player_cards stray_split) true)
    = (SPLIT, g1) /\
    deck g1 = deck stray_split /\ bet g1 = 2 /\
    play rollout_get_action same_value 2 ThePlayer PlayerCards
         stray_split (player_cards stray_split) true
    = play rollout_get_action same_value 1 ThePlayer PlayerCards
           g1 (player_cards stray_split) true.
Proof.
  assert (H1 : get_value (player_cards stray_split) < 21) by reflexivity.
  assert (H2 : ~ In SPLIT
                 (legal_actions same_value (player_cards stray_split) true)).
  { vm_compute. intuition discriminate. }
  split; [exact H1|]. split; [exact H2|].
  eexists. split; [reflexivity|].
  destruct (illegal_action_is_ignored rollout_get_action same_value 1
              ThePlayer PlayerCards stray_split (player_cards stray_split)
              true SPLIT _ H1 eq_refl H2) as ((Hdk & Hb & _) & Hstep & _).
  split; [exact Hdk|]. split; [exact Hb | exact Hstep].
Defined.

Lemma double_down_one_card_then_stop_witness :
  get_value (player_cards double_at_once) < 21 /\
  exists gf,
    play rollout_get_action same_value 1 ThePlayer PlayerCards
         double_at_once (player_cards double_at_once) true
    = Done ([[spades "2" 2; spades "3" 3; hearts "5" 5]],
            [spades "2" 2; spades "3" 3; hearts "5" 5]) gf /\
    bet gf = 4 /\ deck gf = [hearts "7" 7].
Proof.
  assert (H1 : get_value (player_cards double_at_once) < 21) by reflexivity.
  split; [exact H1|].
  destruct (double_down_one_card_then_stop rollout_get_action same_value 0
              ThePlayer PlayerCards double_at_once
              (player_cards double_at_once) true _ (hearts "5" 5)
              [hearts "7" 7] H1 eq_refl eq_refl) as (_ & gf & Hrun & Hb & Hd).
  exists gf. split; [exact Hrun|]. split; [exact Hb | exact Hd].
Defined.

(** C3, against the two-card restriction: after a Hit the hand has three
    cards, and the next call still offers Double-Down; the agent takes
    it, a fourth card is dealt and the bet is doubled. *)
Lemma double_down_offered_on_three_cards :
  exists hands c gf q,
    play rollout_get_action same_value 2 ThePlayer PlayerCards
         double_after_hit (player_cards double_after_hit) true
    = Done (hands, c) gf /\
    asked gf !! 1%nat = Some q /\
    length (q_cards q) = 3%nat /\
    In DOUBLE_DOWN (q_actions q) /\
    q_answer q = DOUBLE_DOWN /\
    length c = 4%nat /\ bet gf = 4.
Proof.
  do 4 eexists. split; [vm_compute; reflexivity|].
  split; [reflexivity|]. simpl. intuition.
Qed.

Lemma reward_21_reads_stored_hand_witness :
  get_value three_card_21 = 21 /\
  length three_card_21 = 3%nat /\
  exists g2,
    game_of (play_round rollout_get_action same_value 5 split_eights) = g2 /\
    length (player_cards g2) = 2%nat /\
    get_value (dealer_cards g2) = 21 /\
    reward g2 three_card_21 = inject_Z (- 2).
Proof.
  assert (H21 : get_value three_card_21 = 21) by reflexivity.
  split; [exact H21|]. split; [reflexivity|].
  destruct (reward_21_reads_stored_hand rollout_get_action same_value
              three_card_21 H21) as (_ & _ & Hsplit).
  eexists. split; [vm_compute; reflexivity|].
  edestruct (Hsplit 5%nat 5%nat split_eights) as (_ & Hlen & Hrew).
  - vm_compute. reflexivity.
  - vm_compute. reflexivity.
  - split; [exact Hlen|]. split; [reflexivity|]. exact Hrew.
Defined.

(** ** Properties of the search tree *)

Section Selection.

Context {F : Type} {ops : FloatOps F}.

(** The order [>] of floats is irreflexive and transitive. *)
Hypothesis fgt_irrefl : forall x : F, fgt x x = false.
Hypothesis fgt_trans :
  forall x y z : F, fgt x y = true -> fgt y z = true -> fgt x z = true.

Variable h : Store.
Variable num_iterations : positive.

Lemma select_loop_unvisited candidates : forall best,
  (forall c, In c candidates -> is_Some (h !! c)) ->
  (exists c cn, In c candidates /\ h !! c = Some cn /\ visits cn = 0%nat) ->
  exists r rn,
    select_loop h num_iterations candidates best = Some (Some r) /\
    In r candidates /\ h !! r = Some rn /\ visits rn = 0%nat.
Proof.
  induction candidates as [|c rest IH]; intros best Hres (u & un & Hin & Hu & Hv).
  { destruct Hin. }
  simpl. destruct (Hres c (or_introl eq_refl)) as [cn Hc]. rewrite Hc.
  destruct (Nat.eqb_spec (visits cn) 0) as [Hz|Hnz].
  - exists c, cn. simpl. tauto.
  - assert (Hrest : exists c' cn',
              In c' rest /\ h !! c' = Some cn' /\ visits cn' = 0%nat).
    { destruct Hin as [<-|Hin]; [congruence|]. exists u, un. tauto. }
    assert (Hres' : forall c', In c' rest -> is_Some (h !! c')).
    { intros c' Hc'. apply Hres. right. exact Hc'. }
    destruct (match best with
              | Some (_, max_ucb1) => fgt (ucb1 cn num_iterations) max_ucb1
              | None => true
              end);
      [destruct (IH (Some (c, ucb1 cn num_iterations)) Hres' Hrest)
         as (r & rn & Hsel & Hr & Hrn & Hrv)
      |destruct (IH best Hres' Hrest) as (r & rn & Hsel & Hr & Hrn & Hrv)];
      exists r, rn; simpl; tauto.
Qed.

Lemma select_loop_visited candidates : forall seen best,
  (forall c, In c candidates ->
             exists cn, h !! c = Some cn /\ visits cn <> 0%nat) ->
  leads h num_iterations seen best ->
  match select_loop h num_iterations candidates best with
  | Some (Some r) =>
      In r (seen ++ candidates) /\
      exists rn, h !! r = Some rn /\
        forall c cn, In c (seen ++ candidates) -> h !! c = Some cn ->
          fgt (ucb1 cn num_iterations) (ucb1 rn num_iterations) = false
  | Some None => seen ++ candidates = []
  | None => False
  end.
Proof.
  induction candidates as [|c rest IH]; intros seen best Hvis Hlead; simpl.
  - rewrite app_nil_r. destruct best as [[m u]|]; simpl; [|exact Hlead].
    destruct Hlead as (Hin & mn & Hm & -> & Hmax). eauto.
  - destruct (Hvis c (or_introl eq_refl)) as (cn & Hc & Hnz). rewrite Hc.
    apply Nat.eqb_neq in Hnz. rewrite Hnz.
    assert (Hvis' : forall c', In c' rest ->
              exists cn', h !! c' = Some cn' /\ visits cn' <> 0%nat).
    { intros c' Hc'. apply Hvis. right. exact Hc'. }
    replace (seen ++ c :: rest) with ((seen ++ [c]) ++ rest)
      by (rewrite <- app_assoc; reflexivity).
    destruct best as [[m u]|].
    + destruct Hlead as (Hin & mn & Hm & -> & Hmax).
      destruct (fgt (ucb1 cn num_iterations) (ucb1 mn num_iterations))
        eqn:Hgt; apply IH; try exact Hvis'; simpl.
      * split; [apply in_or_app; right; left; reflexivity|].
        exists cn. split; [exact Hc|]. split; [reflexivity|].
        intros c' cn' Hin' Hc'. apply in_app_or in Hin'.
        destruct Hin' as [Hin'|[<-|[]]].
        -- destruct (fgt (ucb1 cn' num_iterations) (ucb1 cn num_iterations))
             eqn:Hgt'; [|reflexivity].
           rewrite <- (Hmax c' cn' Hin' Hc'). symmetry.
           exact (fgt_trans _ _ _ Hgt' Hgt).
        -- replace cn' with cn by congruence. apply fgt_irrefl.
      * split; [apply in_or_app; left; exact Hin|].
        exists mn. split; [exact Hm|]. split; [reflexivity|].
        intros c' cn' Hin' Hc'. apply in_app_or in Hin'.
        destruct Hin' as [Hin'|[<-|[]]]; [exact (Hmax c' cn' Hin' Hc')|].
        replace cn' with cn by congruence. exact Hgt.
    + simpl in Hlead. subst seen. apply IH; [exact Hvis'|]. simpl.
      split; [left; reflexivity|].
      exists cn. split; [exact Hc|]. split; [reflexivity|].
      intros c' cn' [<-|[]] Hc'. replace cn' with cn by congruence.
      apply fgt_irrefl.
Qed.

(** C7. On a node whose children are in the store, [select_child]
    returns Python's [None] when there is no child; a child with no
    visit whenever there is one; and otherwise a child whose [ucb1] no
    child's [ucb1] exceeds. *)
Theorem select_child_spec self node :
  h !! self = Some node ->
  (forall c, In c (children node) -> is_Some (h !! c)) ->
  (children node = [] -> select_child h self num_iterations = Some None) /\
  ((exists c cn, child_of h node c cn /\ visits cn = 0%nat) ->
   exists r rn,
     select_child h self num_iterations = Some (Some r) /\
     child_of h node r rn /\ visits rn = 0%nat) /\
  (children node <> [] ->
   (forall c cn, child_of h node c cn -> visits cn <> 0%nat) ->
   exists r rn,
     select_child h self num_iterations = Some (Some r) /\
     child_of h node r rn /\
     forall c cn, child_of h node c cn ->
       fgt (ucb1 cn num_iterations) (ucb1 rn num_iterations) = false).
Proof.
  intros Hself Hres. unfold select_child. rewrite Hself.
  split; [intros ->; reflexivity|]. split.
  - intros (c & cn & [Hin Hc] & Hv).
    destruct (select_loop_unvisited (children node) None Hres)
      as (r & rn & Hsel & Hr & Hrn & Hrv); [eauto|].
    exists r, rn. unfold child_of. tauto.
  - intros Hne Hall.
    assert (Hvis : forall c, In c (children node) ->
              exists cn, h !! c = Some cn /\ visits cn <> 0%nat).
    { intros c Hin. destruct (Hres c Hin) as [cn Hc].
      exists cn. split; [exact Hc|]. apply (Hall c cn). split; assumption. }
    pose proof (select_loop_visited (children node) [] None Hvis eq_refl)
      as Hsel.
    destruct (select_loop h num_iterations (children node) None)
      as [[r|]|]; simpl in Hsel.
    + destruct Hsel as (Hr & rn & Hrn & Hmax).
      exists r, rn. split; [reflexivity|]. split; [split; assumption|].
      intros c cn [Hin Hc]. exact (Hmax c cn Hin Hc).
    + contradiction.
    + contradiction.
Qed.

End Selection.

(** The order of the sample instance is a strict order. *)
Lemma ideal_gt_irrefl (x : option R) : ideal_gt x x = false.
Proof.
  destruct x as [x|]; simpl; [|reflexivity].
  destruct (Rgt_dec x x); [lra | reflexivity].
Qed.

Lemma ideal_gt_trans (x y z : option R) :
  ideal_gt x y = true -> ideal_gt y z = true -> ideal_gt x z = true.
Proof.
  destruct x as [x|], y as [y|], z as [z|]; simpl;
    try discriminate; try reflexivity.
  destruct (Rgt_dec x y), (Rgt_dec y z), (Rgt_dec x z);
    try discriminate; try reflexivity.
  lra.
Qed.

Lemma select_child_spec_witness :
  small_tree !! 0%nat = Some (mkNode None [] [1; 2]%nat 2%Q 1) /\
  exists r rn,
    select_child (F := option R) small_tree 0 2%positive = Some (Some r) /\
    child_of small_tree (mkNode None [] [1; 2]%nat 2%Q 1) r rn /\
    visits rn = 0%nat.
Proof.
  assert (H0 : small_tree !! 0%nat = Some (mkNode None [] [1; 2]%nat 2%Q 1))
    by reflexivity.
  split; [exact H0|].
  assert (Hres : forall c, In c [1; 2]%nat -> is_Some (small_tree !! c)).
  { intros c [<-|[<-|[]]]; eexists; reflexivity. }
  destruct (select_child_spec (ops := ideal_ops) ideal_gt_irrefl
              ideal_gt_trans small_tree 2%positive 0%nat _ H0 Hres)
    as (_ & Hunv & _).
  apply Hunv. exists 2%nat. eexists. split; [split|].
  - simpl. tauto.
  - reflexivity.
  - reflexivity.
Defined.

Section Backpropagation.

Implicit Types (h : Store) (value : Q).

Lemma on_path_older h i j :
  parents_older h -> on_path h i j -> (j <= i)%nat.
Proof.
  intros Hwf. induction 1 as [i|i n p j Hi Hp _ IH]; [lia|].
  specialize (Hwf i n p Hi Hp). lia.
Qed.

(** Stores that agree on the parent of every address have the same
    paths. *)
Lemma on_path_same_parents h h' i j :
  (forall k, parent <$> (h' !! k) = parent <$> (h !! k)) ->
  on_path h i j -> on_path h' i j.
Proof.
  intros Hsame. induction 1 as [i|i n p j Hi Hp _ IH]; [constructor|].
  pose proof (Hsame i) as Hk. rewrite Hi in Hk. simpl in Hk.
  destruct (h' !! i) as [n'|] eqn:Hi'; [|discriminate Hk].
  simpl in Hk. apply on_path_up with (n := n') (p := p);
    [exact Hi' | congruence | exact IH].
Qed.

Lemma bump_same_parents h k n value :
  h !! k = Some n ->
  forall i, parent <$> (<[k := bump value n]> h !! i) = parent <$> (h !! i).
Proof.
  intros Hk i. destruct (decide (i = k)) as [->|Hne].
  - rewrite list_lookup_insert_eq by (eapply lookup_lt_Some; exact Hk).
    rewrite Hk. reflexivity.
  - rewrite list_lookup_insert_ne by congruence. reflexivity.
Qed.

Lemma parents_older_bump h k n value :
  h !! k = Some n -> parents_older h ->
  parents_older (<[k := bump value n]> h).
Proof.
  intros Hk Hwf i m p Hi Hp.
  pose proof (bump_same_parents h k n value Hk i) as Hs.
  rewrite Hi in Hs. simpl in Hs.
  destruct (h !! i) as [m'|] eqn:Hi'; [|discriminate Hs].
  simpl in Hs. apply (Hwf i m' p Hi'). congruence.
Qed.

Lemma backpropogate_spec fuel : forall h self value,
  parents_older h -> (self < fuel)%nat -> (self < length h)%nat ->
  exists h',
    backpropogate fuel h self value = Some h' /\
    length h' = length h /\
    (forall j n, h !! j = Some n -> on_path h self j ->
                 h' !! j = Some (bump value n)) /\
    (forall j, ~ on_path h self j -> h' !! j = h !! j).
Proof.
  induction fuel as [|fuel IH]; intros h self value Hwf Hfuel Hlen; [lia|].
  simpl. destruct (lookup_lt_is_Some_2 h self Hlen) as [n Hn]. rewrite Hn.
  set (h1 := <[self := bump value n]> h).
  assert (Hlen1 : length h1 = length h) by apply length_insert.
  destruct (parent n) as [p|] eqn:Hp.
  - pose proof (Hwf self n p Hn Hp) as Hlt.
    destruct (IH h1 p value) as (h' & Hrun & Hlen' & Hon & Hoff);
      [apply parents_older_bump; assumption | lia | lia |].
    exists h'. split; [exact Hrun|]. split; [lia|].
    assert (Hto1 : forall a b, on_path h a b -> on_path h1 a b).
    { intros a b. apply on_path_same_parents.
      apply bump_same_parents. exact Hn. }
    assert (Hfrom1 : forall a b, on_path h1 a b -> on_path h a b).
    { intros a b. apply on_path_same_parents. intros k.
      symmetry. apply bump_same_parents. exact Hn. }
    assert (Hself : ~ on_path h1 p self).
    { intros Hc. apply Hfrom1, (on_path_older h p self Hwf) in Hc. lia. }
    split.
    + intros j m Hj Hpath. destruct (decide (j = self)) as [->|Hne].
      * rewrite (Hoff self Hself). unfold h1.
        rewrite list_lookup_insert_eq by exact Hlen. congruence.
      * inversion Hpath as [i|i n' p' j' Hi Hp' Hup]; [congruence|]. subst i j'.
        assert (p' = p) by congruence. subst p'.
        pose proof (on_path_older h p j Hwf Hup) as Hle.
        apply (Hon j m); [|apply Hto1; exact Hup].
        unfold h1. rewrite list_lookup_insert_ne by lia. exact Hj.
    + intros j Hnot.
      assert (Hne : j <> self).
      { intros ->. apply Hnot. constructor. }
      rewrite (Hoff j).
      * unfold h1. rewrite list_lookup_insert_ne by congruence. reflexivity.
      * intros Hc. apply Hnot.
        apply on_path_up with (n := n) (p := p);
          [exact Hn | exact Hp | apply Hfrom1; exact Hc].
  - exists h1. split; [reflexivity|]. split; [exact Hlen1|]. split.
    + intros j m Hj Hpath. destruct (decide (j = self)) as [->|Hne].
      * unfold h1. rewrite list_lookup_insert_eq by exact Hlen. congruence.
      * inversion Hpath as [i|i n' p' j' Hi Hp' Hup]; congruence.
    + intros j Hnot. unfold h1. rewrite list_lookup_insert_ne; [reflexivity|].
      intros ->. apply Hnot. constructor.
Qed.

(** The stores the search builds: a root alone, then grown by [expand]
    and updated by [backpropogate], keep parents older than children. *)
Lemma parents_older_root : parents_older [root_node].
Proof.
  intros i n p Hi Hp. destruct i as [|i]; [|discriminate Hi].
  injection Hi as <-. discriminate Hp.
Qed.

Lemma parents_older_expand actions : forall h self h',
  parents_older h -> expand h self actions = Some h' -> parents_older h'.
Proof.
  induction actions as [|action rest IH]; intros h self h' Hwf; simpl.
  { intros [= <-]. exact Hwf. }
  destruct (h !! self) as [n|] eqn:Hn; [|discriminate].
  apply IH. intros i m p Hi Hp.
  pose proof (lookup_lt_Some _ _ _ Hn) as Hlt.
  destruct (decide (i = self)) as [->|Hne].
  - rewrite list_lookup_insert_eq in Hi by (rewrite length_app; lia).
    injection Hi as <-. simpl in Hp. exact (Hwf self n p Hn Hp).
  - rewrite list_lookup_insert_ne in Hi by congruence.
    destruct (decide (i < length h)%nat) as [Hi'|Hi'].
    + rewrite lookup_app_l in Hi by exact Hi'. exact (Hwf i m p Hi Hp).
    + rewrite lookup_app_r in Hi by lia.
      destruct (i - length h)%nat as [|k] eqn:Hk; [|discriminate Hi].
      injection Hi as <-. simpl in Hp. injection Hp as <-. lia.
Qed.

Lemma parents_older_backpropogate fuel : forall h self value h',
  parents_older h -> backpropogate fuel h self value = Some h' ->
  parents_older h'.
Proof.
  induction fuel as [|fuel IH]; intros h self value h' Hwf; simpl;
    [discriminate|].
  destruct (h !! self) as [n|] eqn:Hn; [|discriminate].
  pose proof (parents_older_bump h self n value Hn Hwf) as Hwf1.
  destruct (parent n) as [p|].
  - apply IH. exact Hwf1.
  - intros [= <-]. exact Hwf1.
Qed.

(** Every node of a well-formed store has a root on its path. *)
Lemma on_path_reaches_root h : parents_older h ->
  forall self, (self < length h)%nat ->
  exists root, on_path h self root /\ is_root h root.
Proof.
  intros Hwf self. induction self as [self IH] using lt_wf_ind. intros Hlen.
  destruct (lookup_lt_is_Some_2 h self Hlen) as [n Hn].
  destruct (parent n) as [p|] eqn:Hp.
  - pose proof (Hwf self n p Hn Hp) as Hlt.
    destruct (IH p Hlt ltac:(lia)) as (root & Hpath & Hroot).
    exists root. split; [|exact Hroot].
    apply on_path_up with (n := n) (p := p); assumption.
  - exists self. split; [constructor|]. exists n. tauto.
Qed.

(** C8. In a store where parents are older than their children,
    [backpropogate] started at a node returns (given fuel above the
    address) a store of the same size in which the node and each of its
    ancestors, the root among them, has the value added to its total and
    one more visit, and every other node is as before. *)
Theorem backpropogate_updates_path fuel h self value :
  parents_older h -> (self < length h)%nat -> (self < fuel)%nat ->
  exists h',
    backpropogate fuel h self value = Some h' /\
    length h' = length h /\
    (forall j n, h !! j = Some n -> on_path h self j ->
                 h' !! j = Some (bump value n)) /\
    (forall j, ~ on_path h self j -> h' !! j = h !! j) /\
    (exists root, on_path h self root /\ is_root h root).
Proof.
  intros Hwf Hlen Hfuel.
  destruct (backpropogate_spec fuel h self value Hwf Hfuel Hlen)
    as (h' & Hrun & Hlen' & Hon & Hoff).
  exists h'. repeat (split; [assumption|]).
  apply on_path_reaches_root; assumption.
Qed.

End Backpropagation.

(** The sample tree is what the calls of the search loop build. *)
Example small_tree_grown :
  (expand [root_node] 0 [HIT; STAND] ≫= fun h1 =>
   backpropogate 2 h1 1 2%Q ≫= fun h2 =>
   expand h2 1 [HIT; STAND]) = Some small_tree.
Proof. reflexivity. Qed.

Lemma small_tree_parents_older : parents_older small_tree.
Proof.
  intros i n p Hi Hp.
  do 5 (destruct i as [|i];
        [injection Hi as <-; simpl in Hp; try discriminate Hp;
         injection Hp as <-; lia|]).
  discriminate Hi.
Qed.

Lemma backpropogate_updates_path_witness :
  exists h',
    backpropogate 4 small_tree 3 (-2 # 1) = Some h' /\
    h' !! 3%nat = Some (mkNode (Some 1%nat) [HIT; HIT] [] (0 + (-2 # 1))%Q 1) /\
    h' !! 0%nat = Some (mkNode None [] [1; 2]%nat (2 + (-2 # 1))%Q 2) /\
    h' !! 2%nat = small_tree !! 2%nat.
Proof.
  destruct (backpropogate_updates_path 4 small_tree 3 (-2 # 1)
              small_tree_parents_older ltac:(simpl; lia) ltac:(lia))
    as (h' & Hrun & _ & Hon & Hoff & _).
  exists h'. split; [exact Hrun|].
  assert (H10 : on_path small_tree 1 0).
  { eapply on_path_up; [reflexivity | reflexivity | constructor]. }
  assert (H30 : on_path small_tree 3 0).
  { eapply on_path_up; [reflexivity | reflexivity | exact H10]. }
  split; [rewrite (Hon 3%nat _ eq_refl (on_path_self _ _)); reflexivity|].
  split; [rewrite (Hon 0%nat _ eq_refl H30); reflexivity|].
  apply Hoff. intros H32.
  inversion H32 as [|i n p j Hi Hp H12]; subst.
  injection Hi as <-. injection Hp as <-.
  inversion H12 as [|i n p j Hi Hp H02]; subst.
  injection Hi as <-. injection Hp as <-.
  inversion H02 as [|i n p j Hi Hp _]; subst.
  injection Hi as <-. discriminate Hp.
Defined.

(** ** Further properties of the cards *)

Section Decks.

Lemma card_eqb_face (a b : Card) : card_eqb a b = true <-> face a = face b.
Proof.
  unfold card_eqb, face. rewrite andb_true_iff, !String.eqb_eq.
  split; [intros [-> ->]; reflexivity | intros [= -> ->]; tauto].
Qed.

(** X1. [generate_deck] makes one card per suit and rank entry: the deck
    has as many cards as there are pairs, and its cards are exactly the
    cards of a listed suit with a listed rank and value. *)
Theorem generate_deck_cards (suits : list string) (ranks : list (string * Z)) :
  length (generate_deck suits ranks) = (length suits * length ranks)%nat /\
  forall c,
    In c (generate_deck suits ranks) <->
    exists suit rv,
      In suit suits /\ In rv ranks /\ c = mkCard suit (fst rv) (snd rv).
Proof.
  unfold generate_deck. split.
  - apply flat_map_constant_length. intros suit _. apply length_map.
  - intros c. rewrite in_flat_map. split.
    + intros (suit & Hs & Hc). apply in_map_iff in Hc.
      destruct Hc as (rv & <- & Hrv). exists suit, rv. tauto.
    + intros (suit & rv & Hs & Hrv & ->). exists suit. split; [exact Hs|].
      apply in_map_iff. exists rv. tauto.
Qed.

Lemma generate_deck_faces suits ranks :
  map face (generate_deck suits ranks)
  = flat_map (fun suit => map (pair suit) (map fst ranks)) suits.
Proof.
  unfold generate_deck.
  induction suits as [|suit rest IH]; simpl; [reflexivity|].
  rewrite map_app, IH. f_equal. rewrite !map_map. reflexivity.
Qed.

(** X2. When no suit and no rank label is listed twice, no two cards of
    the generated deck are equal by [Card.__eq__]: the suit and rank
    pairs of the deck are pairwise distinct. *)
Theorem generate_deck_distinct (suits : list string)
    (ranks : list (string * Z)) :
  List.NoDup suits -> List.NoDup (map fst ranks) ->
  List.NoDup (map face (generate_deck suits ranks)) /\
  forall i j a b,
    generate_deck suits ranks !! i = Some a ->
    generate_deck suits ranks !! j = Some b ->
    card_eqb a b = true -> i = j.
Proof.
  intros Hs Hr.
  assert (Hnd : List.NoDup (map face (generate_deck suits ranks))).
  { rewrite generate_deck_faces.
    induction Hs as [|suit rest Hnot _ IH]; simpl; [constructor|].
    apply List.NoDup_app.
    - apply Finite.Injective_map_NoDup; [|exact Hr].
      intros x y [= ->]. reflexivity.
    - exact IH.
    - intros [s' r'] Hin Hin'. apply in_map_iff in Hin.
      destruct Hin as (x & [= <- <-] & _).
      apply in_flat_map in Hin'. destruct Hin' as (s'' & Hs'' & Hin').
      apply in_map_iff in Hin'. destruct Hin' as (y & [= <- _] & _).
      contradiction. }
  split; [exact Hnd|].
  intros i j a b Hi Hj Heq. apply card_eqb_face in Heq.
  apply (proj1 (List.NoDup_nth_error _) Hnd).
  - rewrite length_map. eapply lookup_lt_Some. exact Hi.
  - rewrite !nth_error_map.
    assert (Hn : forall (l : list Card) k, nth_error l k = l !! k).
    { induction l as [|x l IHl]; intros [|k]; simpl; auto. }
    rewrite !Hn, Hi, Hj. simpl. congruence.
Qed.

Lemma generate_deck_distinct_witness :
  List.NoDup (map face (generate_deck default_suits default_ranks)) /\
  length (generate_deck default_suits default_ranks) = 52%nat.
Proof.
  assert (Hs : List.NoDup default_suits).
  { repeat constructor; simpl; intuition discriminate. }
  assert (Hr : List.NoDup (map fst default_ranks)).
  { repeat constructor; simpl; intuition discriminate. }
  split; [|reflexivity].
  exact (proj1 (generate_deck_distinct default_suits default_ranks Hs Hr)).
Defined.





(** X4. [get_value] is the best total the aces allow: it lies between
    the sum with every ace lowered and the raw sum; whenever lowering
    some number of aces gives a total of at most 21, the value is at
    most 21 and at least that total; and a value above 21 has every ace
    lowered. *)
Theorem get_value_best (cards : list Card) :
  raw_sum cards - 10 * Z.of_nat (count_aces cards) <= get_value cards
  <= raw_sum cards /\
  (forall k : nat,
     (k <= count_aces cards)%nat ->
     raw_sum cards - 10 * Z.of_nat k <= 21 ->
     raw_sum cards - 10 * Z.of_nat k <= get_value cards <= 21) /\
  (21 < get_value cards ->
   get_value cards = raw_sum cards - 10 * Z.of_nat (count_aces cards)).
Proof.
  rewrite get_value_unfold.
  destruct (soften_spec (count_aces cards) (raw_sum cards))
    as (k0 & Hk0 & Hv & Hall & Hle).
  split; [lia|]. split.
  - intros k Hk Hfit.
    assert (Hge : (k0 <= k)%nat).
    { destruct (le_lt_dec k0 k) as [H|H]; [exact H|].
      specialize (Hall k H). lia. }
    destruct (le_lt_dec (count_aces cards) k0) as [Hfull|Hpart].
    + assert (k = k0) by lia. subst k. lia.
    + specialize (Hle Hpart). lia.
  - intros Hbust.
    destruct (le_lt_dec (count_aces cards) k0) as [Hfull|Hpart].
    + assert (k0 = count_aces cards) by lia. congruence.
    + specialize (Hle Hpart). lia.
Qed.

End Decks.

(** ** Further properties of [reward] *)

Section Settlement.

Context {AgentState : Type}.
Implicit Types (g : Game AgentState) (hand : list Card).

(** X5. Equal totals below 21 are a push: the reward is 0, whatever the
    bet and the number of cards. *)
Theorem reward_push g hand :
  get_value hand = get_value (dealer_cards g) ->
  get_value hand < 21 ->
  reward g hand = 0%Q.
Proof.
  intros Heq Hlt. unfold reward. rewrite <- Heq.
  destruct (Z.ltb_spec 21 (get_value hand)); [lia|].
  rewrite Z.ltb_irrefl. simpl.
  rewrite Z.eqb_refl.
  destruct (Z.eqb_spec (get_value hand) 21); [lia|]. reflexivity.
Qed.

(** X6. A hand that is not bust and is worth less than a dealer hand of
    at most 21 loses the bet. *)
Theorem reward_loss g hand :
  get_value hand < get_value (dealer_cards g) ->
  get_value (dealer_cards g) <= 21 ->
  reward g hand = inject_Z (- bet g).
Proof.
  intros Hlt Hd. unfold reward.
  destruct (Z.ltb_spec 21 (get_value hand)); [lia|].
  destruct (Z.ltb_spec (get_value (dealer_cards g)) (get_value hand)); [lia|].
  destruct (Z.ltb_spec 21 (get_value (dealer_cards g))); [lia|].
  destruct (Z.eqb_spec (get_value hand) (get_value (dealer_cards g))); [lia|].
  reflexivity.
Qed.

(** X7. Every hand is settled at minus the bet, zero or the bet; no
    other amount is ever returned. *)
Theorem reward_range g hand :
  reward g hand = inject_Z (- bet g) \/
  reward g hand = 0%Q \/
  reward g hand = inject_Z (bet g).
Proof.
  unfold reward.
  destruct (21 <? get_value hand); [left; reflexivity|].
  destruct ((get_value hand =? get_value (dealer_cards g))
            && (negb (get_value hand =? 21)
                || negb (length (player_cards g) =? 2)%nat));
    [right; left; reflexivity|].
  destruct ((get_value (dealer_cards g) <? get_value hand)
            || (21 <? get_value (dealer_cards g)));
    [right; right; reflexivity | left; reflexivity].
Qed.

End Settlement.

Lemma reward_push_witness :
  reward (mkGame [] 2 [hearts "10" 10; hearts "9" 9]
                 [spades "10" 10; spades "9" 9] tt [])
         [spades "10" 10; spades "9" 9] = 0%Q.
Proof.
  apply (reward_push (mkGame [] 2 [hearts "10" 10; hearts "9" 9]
                             [spades "10" 10; spades "9" 9] tt []));
    reflexivity.
Defined.

Lemma reward_loss_witness :
  reward (mkGame [] 2 [hearts "10" 10; hearts "9" 9]
                 [spades "10" 10; spades "8" 8] tt [])
         [spades "10" 10; spades "8" 8] = inject_Z (- 2).
Proof.
  apply (reward_loss (mkGame [] 2 [hearts "10" 10; hearts "9" 9]
                             [spades "10" 10; spades "8" 8] tt []));
    [reflexivity | discriminate].
Defined.

(** ** Further properties of [play] *)

Section Runs.

Context {AgentState : Type}.
Variable agent_get_action :
  AgentState -> list Card -> list Action -> list Card -> Action * AgentState.
Variable split_rule : Card -> Card -> bool.

Implicit Types (g : Game AgentState) (cards : list Card) (r : HandRef).

#[local] Arguments Engine.legal_actions : simpl never.
#[local] Arguments Engine.action_in : simpl never.
#[local] Arguments Engine.get_action : simpl never.
#[local] Arguments Engine.deal : simpl never.
#[local] Arguments get_value : simpl never.

Local Abbreviation get_action := (get_action agent_get_action).
Local Abbreviation legal_actions := (legal_actions split_rule).
Local Abbreviation play := (play agent_get_action split_rule).

Lemma deal_done g r cards cards' g' :
  deal g r cards = Done cards' g' ->
  exists card,
    deck g = card :: deck g' /\ cards' = cards ++ [card] /\
    bet g' = bet g /\ agent g' = agent g /\ asked g' = asked g.
Proof.
  unfold deal. destruct (deck g) as [|card rest]; [discriminate|].
  intros [= <- <-]. exists card. destruct r; simpl; tauto.
Qed.

Lemma deal_not_out_of_fuel g r cards :
  is_out_of_fuel (deal g r cards) = false.
Proof. unfold deal. destruct (deck g); reflexivity. Qed.

Lemma deal_index_error g r cards g' :
  deal g r cards = IndexError g' -> g' = g /\ deck g = [].
Proof.
  unfold deal. destruct (deck g); [|discriminate].
  intros [= <-]. tauto.
Qed.

(** The cards of a finished run: what was dealt is a prefix of the deck,
    and either the run returns the one hand with the dealt cards
    appended, or it drew [hits] to a two-card hand, split it and returns
    the two piles, each with its share of the cards dealt after. *)
Lemma play_cards fuel : forall who r g cards cansplit res c gf,
  play fuel who r g cards cansplit = Done (res, c) gf ->
  exists dealt,
    deck g = dealt ++ deck gf /\
    ((res = [cards ++ dealt] /\ c = cards ++ dealt) \/
     (exists hits da db,
        dealt = hits ++ da ++ db /\
        res = [take 1 (cards ++ hits) ++ da; drop 1 (cards ++ hits) ++ db] /\
        c = cards ++ hits /\ length (cards ++ hits) = 2%nat /\
        cansplit = true)).
Proof.
  induction fuel as [|fuel IH]; intros who r g cards cansplit res c gf;
    simpl; [discriminate|].
  destruct (get_value cards <? 21).
  2:{ intros [= <- <- <-]. exists []. rewrite app_nil_r.
      split; [reflexivity | left; tauto]. }
  destruct (get_action who g cards (legal_actions cards cansplit))
    as [act g1] eqn:Hga.
  destruct (get_action_frame _ _ _ _ _ _ _ Hga) as (Hdk & _).
  destruct (action_in act (legal_actions cards cansplit)) eqn:Hin.
  - destruct act.
    + destruct (deal g1 r cards) as [cards' g2|g2|g2] eqn:Hd;
        simpl; try discriminate.
      destruct (deal_done _ _ _ _ _ Hd) as (card & Hdeck & -> & _).
      intros Hrun. destruct (IH _ _ _ _ _ _ _ _ Hrun) as (dealt & Hd2 & Hres).
      exists (card :: dealt). split.
      { rewrite <- Hdk, Hdeck, Hd2. reflexivity. }
      destruct Hres as [[-> ->]|(hits & da & db & -> & -> & -> & Hlen & Hcs)].
      * left. rewrite <- !app_assoc. tauto.
      * right. exists (card :: hits), da, db.
        rewrite <- !app_assoc in *. simpl in *. tauto.
    + intros [= <- <- <-]. exists []. rewrite app_nil_r.
      split; [exact (eq_sym Hdk) | left; tauto].
    + destruct (deal g1 r cards) as [cards' g2|g2|g2] eqn:Hd;
        simpl; try discriminate.
      destruct (deal_done _ _ _ _ _ Hd) as (card & Hdeck & -> & _).
      intros [= <- <- <-]. exists [card]. split.
      { rewrite <- Hdk, Hdeck. reflexivity. }
      left. tauto.
    + apply action_in_spec, split_legal_iff in Hin.
      destruct Hin as (Hlen & Hcs & _).
      destruct (play fuel who Pile g1 (take 1 cards) false)
        as [[ra ca] g2|g2|g2] eqn:Ha; simpl; try discriminate.
      destruct (play fuel who Pile g2 (drop 1 cards) false)
        as [[rb cb] g3|g3|g3] eqn:Hb; simpl; try discriminate.
      intros [= <- <- <-].
      destruct (IH _ _ _ _ _ _ _ _ Ha) as (da & Hda & Hra).
      destruct (IH _ _ _ _ _ _ _ _ Hb) as (db & Hdb & Hrb).
      exists (da ++ db). split.
      { rewrite <- Hdk, Hda, Hdb, app_assoc. reflexivity. }
      right. exists [], da, db. rewrite app_nil_r. split; [reflexivity|].
      destruct Hra as [[_ ->]|(_ & _ & _ & _ & _ & _ & _ & Hf)];
        [|discriminate Hf].
      destruct Hrb as [[_ ->]|(_ & _ & _ & _ & _ & _ & _ & Hf)];
        [|discriminate Hf].
      tauto.
  - intros Hrun. destruct (IH _ _ _ _ _ _ _ _ Hrun) as (dealt & Hd2 & Hres).
    exists dealt. split; [congruence | exact Hres].
Qed.

Lemma play_conserves_cards_len fuel who r g cards cansplit res c gf :
  play fuel who r g cards cansplit = Done (res, c) gf ->
  (length res = 1 \/ length res = 2)%nat.
Proof.
  intros Hrun. destruct (play_cards _ _ _ _ _ _ _ _ _ Hrun)
    as (dealt & _ & [[-> _]|(hits & da & db & _ & -> & _)]);
    [left | right]; reflexivity.
Qed.

(** X8. No card is lost or made up by a finished run of the per-hand
    loop: the cards dealt are a prefix of the deck, the rest of the deck
    is what is left, and the returned hands hold exactly the cards of
    the hand and the cards dealt. A run that did not split returns the
    hand followed by the dealt cards. *)
Theorem play_conserves_cards fuel who r g cards cansplit res c gf :
  play fuel who r g cards cansplit = Done (res, c) gf ->
  exists dealt,
    deck g = dealt ++ deck gf /\
    Permutation (concat res) (cards ++ dealt) /\
    (length res = 1%nat -> res = [cards ++ dealt]) /\
    (length res = 1%nat \/ length res = 2%nat).
Proof.
  intros Hrun. destruct (play_cards _ _ _ _ _ _ _ _ _ Hrun)
    as (dealt & Hdeck & Hres).
  exists dealt. split; [exact Hdeck|].
  destruct Hres as [[-> _]|(hits & da & db & -> & -> & _ & Hlen & _)].
  - simpl. rewrite app_nil_r. split; [reflexivity|]. tauto.
  - split; [|split; [discriminate | right; reflexivity]].
    simpl. rewrite app_nil_r.
    rewrite (app_assoc cards hits).
    rewrite <- (take_drop 1 (cards ++ hits)) at 3.
    rewrite <- !app_assoc. apply Permutation_app_head.
    rewrite !app_assoc. apply Permutation_app_tail.
    apply Permutation_app_comm.
Qed.

Lemma doubles_app (calls calls' : list Query) :
  doubles (calls ++ calls') = (doubles calls + doubles calls')%nat.
Proof.
  unfold doubles. rewrite List.filter_app, length_app. reflexivity.
Qed.

Lemma doubles_cons (q : Query) (calls : list Query) :
  doubles (q :: calls)
  = ((if Action_eqb (q_answer q) DOUBLE_DOWN then 1 else 0)
     + doubles calls)%nat.
Proof.
  unfold doubles. simpl.
  destruct (Action_eqb (q_answer q) DOUBLE_DOWN); reflexivity.
Qed.

Lemma play_bet fuel : forall who r g cards cansplit res c gf,
  play fuel who r g cards cansplit = Done (res, c) gf ->
  exists calls,
    asked gf = asked g ++ calls /\
    bet gf = bet g * 2 ^ Z.of_nat (doubles calls) /\
    (doubles calls <= length res)%nat.
Proof.
  induction fuel as [|fuel IH]; intros who r g cards cansplit res c gf;
    simpl; [discriminate|].
  destruct (get_value cards <? 21).
  2:{ intros [= <- <- <-]. exists []. rewrite app_nil_r.
      unfold doubles. simpl. split; [reflexivity|]. split; lia. }
  destruct (get_action who g cards (legal_actions cards cansplit))
    as [act g1] eqn:Hga.
  destruct (get_action_frame _ _ _ _ _ _ _ Hga) as (_ & Hb & _ & _ & Hlog).
  set (q := mkQuery who cards (legal_actions cards cansplit)
                    (take 1 (dealer_cards g)) act) in *.
  destruct (action_in act (legal_actions cards cansplit)) eqn:Hin.
  - destruct act.
    + destruct (deal g1 r cards) as [cards' g2|g2|g2] eqn:Hd;
        simpl; try discriminate.
      destruct (deal_done _ _ _ _ _ Hd) as (card & _ & _ & Hb2 & _ & Hl2).
      intros Hrun. destruct (IH _ _ _ _ _ _ _ _ Hrun) as (calls & Hc & Hbet & Hle).
      exists (q :: calls). rewrite doubles_cons. simpl.
      split; [rewrite Hc, Hl2, Hlog, <- app_assoc; reflexivity|].
      split; [congruence | exact Hle].
    + intros [= <- <- <-]. exists [q]. rewrite doubles_cons.
      unfold doubles. simpl. split; [exact Hlog|]. split; lia.
    + destruct (deal g1 r cards) as [cards' g2|g2|g2] eqn:Hd;
        simpl; try discriminate.
      destruct (deal_done _ _ _ _ _ Hd) as (card & _ & _ & Hb2 & _ & Hl2).
      intros [= <- <- <-]. exists [q]. rewrite doubles_cons.
      unfold doubles. simpl. split; [congruence|]. split; lia.
    + destruct (play fuel who Pile g1 (take 1 cards) false)
        as [[ra ca] g2|g2|g2] eqn:Ha; simpl; try discriminate.
      destruct (play fuel who Pile g2 (drop 1 cards) false)
        as [[rb cb] g3|g3|g3] eqn:Hbb; simpl; try discriminate.
      intros [= <- <- <-].
      destruct (IH _ _ _ _ _ _ _ _ Ha) as (ca' & Hca & Hbeta & Hlea).
      destruct (IH _ _ _ _ _ _ _ _ Hbb) as (cb' & Hcb & Hbetb & Hleb).
      assert (Hone : forall g0 g' pile rr cc,
                play fuel who Pile g0 pile false = Done (rr, cc) g' ->
                length rr = 1%nat).
      { intros g0 g' pile rr cc Hr.
        destruct (play_cards _ _ _ _ _ _ _ _ _ Hr)
          as (dd & _ & [[-> _]|(h1 & h2 & h3 & _ & _ & _ & _ & Hf)]);
          [reflexivity | discriminate Hf]. }
      rewrite (Hone _ _ _ _ _ Ha) in Hlea.
      rewrite (Hone _ _ _ _ _ Hbb) in Hleb.
      exists (q :: ca' ++ cb'). rewrite doubles_cons, doubles_app. simpl.
      split; [rewrite Hcb, Hca, Hlog, <- !app_assoc; reflexivity|].
      split; [|lia].
      rewrite Hbetb, Hbeta, Hb, Nat2Z.inj_add, Z.pow_add_r by lia. ring.
  - intros Hrun. destruct (IH _ _ _ _ _ _ _ _ Hrun) as (calls & Hc & Hbet & Hle).
    exists (q :: calls). rewrite doubles_cons.
    assert (Hnd : Action_eqb act DOUBLE_DOWN = false).
    { destruct act; try reflexivity.
      rewrite (proj2 (action_in_spec _ _)
                 (double_down_always_offered split_rule cards cansplit))
        in Hin. discriminate Hin. }
    subst q. simpl. rewrite Hnd. simpl.
    split; [rewrite Hc, Hlog, <- app_assoc; reflexivity|].
    split; [congruence | exact Hle].
Qed.

(** X9. In a finished run of the per-hand loop the bet is multiplied by
    two once for every Double-Down answer, and there is at most one such
    answer per returned hand: the bet ends at once, twice or (after a
    split) four times the bet the run started with. *)
Theorem play_doubles_bet fuel who r g cards cansplit res c gf :
  play fuel who r g cards cansplit = Done (res, c) gf ->
  exists calls,
    asked gf = asked g ++ calls /\
    bet gf = bet g * 2 ^ Z.of_nat (doubles calls) /\
    (doubles calls <= length res)%nat /\
    (bet gf = bet g \/ bet gf = 2 * bet g \/ bet gf = 4 * bet g).
Proof.
  intros Hrun.
  destruct (play_bet _ _ _ _ _ _ _ _ _ Hrun) as (calls & Hc & Hbet & Hle).
  pose proof (play_conserves_cards_len _ _ _ _ _ _ _ _ _ Hrun) as Hlen.
  exists calls. repeat (split; [assumption|]).
  assert (Hk : (doubles calls = 0 \/ doubles calls = 1 \/ doubles calls = 2)%nat)
    by lia.
  destruct Hk as [Hk|[Hk|Hk]]; rewrite Hk in Hbet; simpl in Hbet; lia.
Qed.

(** The dealer's answers: Hit below 17, Stand from 17 on, whatever is
    offered; only the record of calls changes. *)
Lemma dealer_answer g cards actions :
  get_action TheDealer g cards actions
  = (if get_value cards <? 17 then HIT else STAND,
     mkGame (deck g) (bet g) (dealer_cards g) (player_cards g) (agent g)
            (asked g ++ [mkQuery TheDealer cards actions
                                 (take 1 (dealer_cards g))
                                 (if get_value cards <? 17
                                  then HIT else STAND)])).
Proof. reflexivity. Qed.

Lemma hit_stand_offered cards cansplit :
  action_in HIT (legal_actions cards cansplit) = true /\
  action_in STAND (legal_actions cards cansplit) = true.
Proof.
  split; apply action_in_spec; unfold Engine.legal_actions;
    apply in_or_app; left; simpl; tauto.
Qed.

(** X10. A finished run of the dealer returns one hand worth at least
    17; that hand is the dealer's cards followed by cards from the top
    of the deck, drawn one by one while the value was below 17; the bet
    and the state of the player's agent are left as they were. *)
Theorem dealer_draws_to_17 fuel : forall r g cards cansplit res c gf,
  play fuel TheDealer r g cards cansplit = Done (res, c) gf ->
  res = [c] /\ 17 <= get_value c /\
  bet gf = bet g /\ agent gf = agent g /\
  exists dealt,
    c = cards ++ dealt /\ deck g = dealt ++ deck gf /\
    forall k, (k < length dealt)%nat ->
              get_value (cards ++ take k dealt) < 17.
Proof.
  induction fuel as [|fuel IH]; intros r g cards cansplit res c gf;
    simpl; [discriminate|].
  destruct (Z.ltb_spec (get_value cards) 21) as [Hlt|Hge].
  2:{ intros [= <- <- <-]. split; [reflexivity|]. split; [lia|].
      split; [reflexivity|]. split; [reflexivity|].
      exists []. rewrite app_nil_r. split; [reflexivity|].
      split; [reflexivity|]. simpl. intros k Hk. lia. }
  unfold dealer_get_action.
  destruct (hit_stand_offered cards cansplit) as [Hhit Hstand].
  destruct (Z.ltb_spec (get_value cards) 17) as [Hlow|Hhigh].
  - rewrite Hhit.
    match goal with |- context [deal ?g1 r cards] =>
      destruct (deal g1 r cards) as [cards' g2|g2|g2] eqn:Hd end;
      simpl; try discriminate.
    destruct (deal_done _ _ _ _ _ Hd) as (card & Hdeck & -> & Hb2 & Ha2 & _).
    simpl in Hdeck, Hb2, Ha2.
    intros Hrun.
    destruct (IH _ _ _ _ _ _ _ Hrun)
      as (-> & H17 & Hb & Ha & dealt & -> & Hdk & Hall).
    split; [reflexivity|]. split; [exact H17|].
    split; [congruence|]. split; [congruence|].
    exists (card :: dealt). rewrite <- app_assoc.
    split; [reflexivity|]. split; [rewrite Hdeck, Hdk; reflexivity|].
    intros [|k] Hk; simpl in *.
    + rewrite app_nil_r. exact Hlow.
    + specialize (Hall k ltac:(lia)). rewrite <- app_assoc in Hall.
      exact Hall.
  - rewrite Hstand. intros [= <- <- <-].
    split; [reflexivity|]. split; [lia|]. simpl.
    split; [reflexivity|]. split; [reflexivity|].
    exists []. rewrite app_nil_r. split; [reflexivity|].
    split; [reflexivity|]. simpl. intros k Hk. lia.
Qed.

(** *** Termination *)

Lemma get_action_budget (budget : AgentState -> nat) :
  bounded_strays agent_get_action split_rule budget ->
  forall who g cards cansplit act g1,
    get_action who g cards (legal_actions cards cansplit) = (act, g1) ->
    (budget (agent g1) <= budget (agent g))%nat /\
    (In act (legal_actions cards cansplit) \/
     (budget (agent g1) < budget (agent g))%nat).
Proof.
  intros Hb who g cards cansplit act g1. unfold Engine.get_action.
  destruct who.
  - specialize (Hb (agent g) cards cansplit (take 1 (dealer_cards g))).
    simpl in Hb.
    destruct (agent_get_action _ _ _ _) as [a s]. intros [= <- <-].
    simpl. exact Hb.
  - intros [= <- <-]. split; [simpl; lia|]. left.
    destruct (hit_stand_offered cards cansplit) as [Hh Hs].
    unfold dealer_get_action.
    destruct (get_value cards <? 17); apply action_in_spec; assumption.
Qed.

(** With fuel above the agent's budget of stray answers plus the size
    of the deck, a run does not stop for want of fuel, and it leaves
    no more budget and cards than it found. *)
Lemma play_terminates (budget : AgentState -> nat) :
  bounded_strays agent_get_action split_rule budget ->
  forall fuel who r g cards (cansplit : bool),
    (budget (agent g) + length (deck g) + (if cansplit then 2 else 1)
     <= fuel)%nat ->
    is_out_of_fuel (play fuel who r g cards cansplit) = false /\
    (budget (agent (game_of (play fuel who r g cards cansplit)))
     + length (deck (game_of (play fuel who r g cards cansplit)))
     <= budget (agent g) + length (deck g))%nat.
Proof.
  intros Hb. induction fuel as [|fuel IH]; intros who r g cards cansplit Hf.
  { destruct cansplit; lia. }
  simpl. destruct (get_value cards <? 21); [|simpl; split; [reflexivity|lia]].
  destruct (get_action who g cards (legal_actions cards cansplit))
    as [act g1] eqn:Hga.
  destruct (get_action_frame _ _ _ _ _ _ _ Hga) as (Hdk & _).
  destruct (get_action_budget budget Hb _ _ _ _ _ _ Hga) as (Hle & Hprog).
  assert (Hdl : length (deck g1) = length (deck g))
    by (rewrite Hdk; reflexivity).
  destruct (action_in act (legal_actions cards cansplit)) eqn:Hin.
  - destruct act.
    + destruct (deal g1 r cards) as [cards' g2|g2|g2] eqn:Hd; simpl.
      * destruct (deal_done _ _ _ _ _ Hd) as (card & Hdeck & _ & _ & Ha & _).
        assert (Hlen : length (deck g) = S (length (deck g2)))
          by (rewrite <- Hdk, Hdeck; reflexivity).
        destruct (IH who r g2 cards' cansplit) as [Hno Hm].
        { rewrite Ha. destruct cansplit; lia. }
        split; [exact Hno|]. rewrite Ha in Hm. lia.
      * destruct (deal_index_error _ _ _ _ Hd) as [-> _].
        split; [reflexivity | lia].
      * pose proof (deal_not_out_of_fuel g1 r cards) as Hn.
        rewrite Hd in Hn. discriminate Hn.
    + simpl. split; [reflexivity | lia].
    + destruct (deal g1 r cards) as [cards' g2|g2|g2] eqn:Hd; simpl.
      * destruct (deal_done _ _ _ _ _ Hd) as (card & Hdeck & _ & _ & Ha & _).
        assert (Hlen : length (deck g) = S (length (deck g2)))
          by (rewrite <- Hdk, Hdeck; reflexivity).
        rewrite Ha. split; [reflexivity | lia].
      * destruct (deal_index_error _ _ _ _ Hd) as [-> _].
        split; [reflexivity | lia].
      * pose proof (deal_not_out_of_fuel g1 r cards) as Hn.
        rewrite Hd in Hn. discriminate Hn.
    + apply action_in_spec, split_legal_iff in Hin.
      destruct Hin as (_ & -> & _).
      destruct (IH who Pile g1 (take 1 cards) false) as [Hna Hma];
        [simpl; lia|].
      destruct (play fuel who Pile g1 (take 1 cards) false)
        as [ra g2|g2|g2]; simpl in *; try discriminate Hna;
        [|split; [reflexivity | lia]].
      destruct (IH who Pile g2 (drop 1 cards) false) as [Hnb Hmb];
        [simpl; lia|].
      destruct (play fuel who Pile g2 (drop 1 cards) false)
        as [rb g3|g3|g3]; simpl in *; try discriminate Hnb;
        split; try reflexivity; lia.
  - assert (Hless : (budget (agent g1) < budget (agent g))%nat).
    { destruct Hprog as [Hl|Hl]; [|exact Hl].
      apply action_in_spec in Hl. congruence. }
    destruct (IH who r g1 cards cansplit) as [Hno Hm].
    { destruct cansplit; lia. }
    split; [exact Hno | lia].
Qed.

(** X11. The per-hand loop ends whenever the agent's answers outside
    the offered actions are bounded: with fuel for that bound, the size
    of the deck and two more iterations, a run ends with its hands or
    with the error of an empty deck, never for want of fuel. *)
Theorem play_ends_within_fuel (budget : AgentState -> nat)
    fuel who r g cards cansplit :
  bounded_strays agent_get_action split_rule budget ->
  (budget (agent g) + length (deck g) + 2 <= fuel)%nat ->
  is_out_of_fuel (play fuel who r g cards cansplit) = false.
Proof.
  intros Hb Hf. apply (play_terminates budget Hb).
  destruct cansplit; lia.
Qed.

(** X13. While the agent keeps answering outside the offered actions on
    a hand below 21, the loop does not end: every iteration is spent on
    a call that is ignored, and the deck and the bet stay as they
    were. *)
Theorem play_loops_on_strays fuel r g cards cansplit :
  get_value cards < 21 ->
  (forall s seen,
     ~ In (fst (agent_get_action s cards (legal_actions cards cansplit) seen))
          (legal_actions cards cansplit)) ->
  exists gf,
    play fuel ThePlayer r g cards cansplit = OutOfFuel gf /\
    deck gf = deck g /\ bet gf = bet g /\
    length (asked gf) = (length (asked g) + fuel)%nat.
Proof.
  intros Hlt Hstray. revert g.
  induction fuel as [|fuel IH]; intros g.
  { exists g. simpl. repeat split; lia. }
  cbn [Engine.play]. rewrite (proj2 (Z.ltb_lt _ _) Hlt).
  destruct (get_action ThePlayer g cards (legal_actions cards cansplit))
    as [act g1] eqn:Hga.
  destruct (get_action_frame _ _ _ _ _ _ _ Hga) as (Hdk & Hb & _ & _ & Hlog).
  assert (Hact : act = fst (agent_get_action (agent g) cards
                              (legal_actions cards cansplit)
                              (take 1 (dealer_cards g)))).
  { unfold Engine.get_action in Hga.
    destruct (agent_get_action _ _ _ _) as [a s]. simpl.
    injection Hga as <- _. reflexivity. }
  assert (Hin : action_in act (legal_actions cards cansplit) = false).
  { destruct (action_in act (legal_actions cards cansplit)) eqn:E;
      [|reflexivity].
    apply action_in_spec in E. rewrite Hact in E.
    exfalso. exact (Hstray _ _ E). }
  rewrite Hin. destruct (IH g1) as (gf & Hrun & Hd & Hbet & Hlen).
  exists gf. split; [exact Hrun|]. split; [congruence|]. split; [congruence|].
  rewrite Hlen, Hlog, length_app. simpl. lia.
Qed.

(** *** What the agent is shown of the dealer *)

Lemma deal_dealer_cards_other g r cards :
  r <> DealerCards ->
  dealer_cards (game_of (deal g r cards)) = dealer_cards g.
Proof.
  intros Hr. unfold deal. destruct (deck g); simpl; [reflexivity|].
  destruct r; [reflexivity | contradiction | reflexivity].
Qed.

(** X14. In a run on any list but the dealer's own, the dealer's hand
    is left as it is and every call shows the agent the same thing of
    it: its first card, and nothing if it is empty. *)
Theorem play_shows_first_dealer_card fuel : forall who r g cards cansplit,
  r <> DealerCards ->
  dealer_cards (game_of (play fuel who r g cards cansplit)) = dealer_cards g /\
  exists calls,
    asked (game_of (play fuel who r g cards cansplit)) = asked g ++ calls /\
    Forall (fun q => q_dealer q = take 1 (dealer_cards g) /\ q_seat q = who)
           calls.
Proof.
  induction fuel as [|fuel IH]; intros who r g cards cansplit Hr; simpl.
  { split; [reflexivity|]. exists []. rewrite app_nil_r. split; constructor. }
  destruct (get_value cards <? 21).
  2:{ split; [reflexivity|]. exists []. rewrite app_nil_r.
      split; constructor. }
  destruct (get_action who g cards (legal_actions cards cansplit))
    as [act g1] eqn:Hga.
  destruct (get_action_frame _ _ _ _ _ _ _ Hga) as (_ & _ & Hdc & _ & Hlog).
  set (q := mkQuery who cards (legal_actions cards cansplit)
                    (take 1 (dealer_cards g)) act) in *.
  assert (Hq : q_dealer q = take 1 (dealer_cards g) /\ q_seat q = who)
    by (split; reflexivity).
  assert (Hp : Pile <> DealerCards) by discriminate.
  assert (Hgo : forall m : outcome (Game AgentState)
                                   (list (list Card) * list Card),
            dealer_cards (game_of m) = dealer_cards g1 /\
            (exists calls,
               asked (game_of m) = asked g1 ++ calls /\
               Forall (fun q => q_dealer q = take 1 (dealer_cards g1)
                                /\ q_seat q = who) calls) ->
            dealer_cards (game_of m) = dealer_cards g /\
            exists calls,
              asked (game_of m) = asked g ++ calls /\
              Forall (fun q => q_dealer q = take 1 (dealer_cards g)
                               /\ q_seat q = who) calls).
  { intros m (Hd & calls & Hc & Hall). split; [congruence|].
    exists (q :: calls). rewrite Hc, Hlog, <- app_assoc.
    split; [reflexivity|]. constructor; [exact Hq|].
    rewrite Hdc in Hall. exact Hall. }
  assert (Hnil : forall g', dealer_cards g' = dealer_cards g1 ->
            asked g' = asked g1 ->
            dealer_cards g' = dealer_cards g1 /\
            exists calls,
              asked g' = asked g1 ++ calls /\
              Forall (fun q => q_dealer q = take 1 (dealer_cards g1)
                               /\ q_seat q = who) calls).
  { intros g' Hd Ha. split; [exact Hd|]. exists [].
    rewrite app_nil_r. split; [exact Ha | constructor]. }
  apply Hgo.
  destruct (action_in act (legal_actions cards cansplit)).
  - destruct act.
    + pose proof (deal_dealer_cards_other g1 r cards Hr) as Hd.
      pose proof (deal_asked g1 r cards) as Ha.
      destruct (deal g1 r cards) as [cards' g2|g2|g2]; simpl in *;
        try (apply Hnil; assumption).
      destruct (IH who r g2 cards' cansplit Hr) as (Hd2 & calls & Hc & Hall).
      split; [congruence|]. exists calls. rewrite Hc, Ha, <- Hd.
      split; [reflexivity | exact Hall].
    + simpl. apply Hnil; reflexivity.
    + pose proof (deal_dealer_cards_other g1 r cards Hr) as Hd.
      pose proof (deal_asked g1 r cards) as Ha.
      destruct (deal g1 r cards) as [cards' g2|g2|g2]; simpl in *;
        apply Hnil; assumption.
    + destruct (IH who Pile g1 (take 1 cards) false Hp)
        as (Hda & ca & Hca & Halla).
      destruct (play fuel who Pile g1 (take 1 cards) false)
        as [ra g2|g2|g2]; simpl in *;
        try (split; [exact Hda|]; exists ca; split; assumption).
      destruct (IH who Pile g2 (drop 1 cards) false Hp)
        as (Hdb & cb & Hcb & Hallb).
      assert (Hfin : forall g3,
                dealer_cards g3 = dealer_cards g2 ->
                asked g3 = asked g2 ++ cb ->
                dealer_cards g3 = dealer_cards g1 /\
                exists calls,
                  asked g3 = asked g1 ++ calls /\
                  Forall (fun q => q_dealer q = take 1 (dealer_cards g1)
                                   /\ q_seat q = who) calls).
      { intros g3 Hd3 Ha3. split; [congruence|]. exists (ca ++ cb).
        rewrite Ha3, Hca, <- app_assoc. split; [reflexivity|].
        apply Forall_app. split; [exact Halla|].
        rewrite Hda in Hallb. exact Hallb. }
      destruct (play fuel who Pile g2 (drop 1 cards) false)
        as [rb g3|g3|g3]; simpl in *; apply Hfin; assumption.
  - apply (IH who r g1 cards cansplit Hr).
Qed.

End Runs.

Lemma play_conserves_cards_witness :
  exists dealt,
    [hearts "3" 3; hearts "King" 10; hearts "5" 5] = dealt ++ [hearts "5" 5] /\
    Permutation
      (concat [three_card_21; [spades "8" 8]])
      ([hearts "8" 8; spades "8" 8] ++ dealt).
Proof.
  destruct (play_conserves_cards rollout_get_action same_value 5 ThePlayer
              PlayerCards split_eights (player_cards split_eights) true
              [three_card_21; [spades "8" 8]]
              [hearts "8" 8; spades "8" 8]
              (mkGame [hearts "5" 5] 2 [hearts "10" 10; hearts "6" 6]
                      [hearts "8" 8; spades "8" 8]
                      (mkRollout [] [SPLIT; HIT; HIT; STAND] [])
                      (asked (game_of
                                (play rollout_get_action same_value 5
                                      ThePlayer PlayerCards split_eights
                                      (player_cards split_eights) true))))
              eq_refl) as (dealt & Hdeck & Hperm & _).
  exists dealt. split; [exact Hdeck | exact Hperm].
Defined.

Lemma play_doubles_bet_witness :
  exists gf,
    play rollout_get_action same_value 1 ThePlayer PlayerCards
         double_at_once (player_cards double_at_once) true
    = Done ([[spades "2" 2; spades "3" 3; hearts "5" 5]],
            [spades "2" 2; spades "3" 3; hearts "5" 5]) gf /\
    (bet gf = 2 \/ bet gf = 2 * 2 \/ bet gf = 4 * 2).
Proof.
  assert (Hrun : exists gf,
            play rollout_get_action same_value 1 ThePlayer PlayerCards
                 double_at_once (player_cards double_at_once) true
            = Done ([[spades "2" 2; spades "3" 3; hearts "5" 5]],
                    [spades "2" 2; spades "3" 3; hearts "5" 5]) gf)
    by (eexists; vm_compute; reflexivity).
  destruct Hrun as [gf Hrun]. exists gf. split; [exact Hrun|].
  destruct (play_doubles_bet _ _ _ _ _ _ _ _ _ _ _ Hrun)
    as (calls & _ & _ & _ & H).
  exact H.
Defined.

Lemma dealer_draws_to_17_witness :
  exists gf,
    play timid_get_action same_value 3 TheDealer DealerCards
         (mkGame [hearts "5" 5; hearts "2" 2] 2
                 [hearts "10" 10; hearts "6" 6] [] tt [])
         [hearts "10" 10; hearts "6" 6] true
    = Done ([[hearts "10" 10; hearts "6" 6; hearts "5" 5]],
            [hearts "10" 10; hearts "6" 6; hearts "5" 5]) gf /\
    17 <= get_value [hearts "10" 10; hearts "6" 6; hearts "5" 5] /\
    bet gf = 2.
Proof.
  assert (Hrun : exists gf,
            play timid_get_action same_value 3 TheDealer DealerCards
                 (mkGame [hearts "5" 5; hearts "2" 2] 2
                         [hearts "10" 10; hearts "6" 6] [] tt [])
                 [hearts "10" 10; hearts "6" 6] true
            = Done ([[hearts "10" 10; hearts "6" 6; hearts "5" 5]],
                    [hearts "10" 10; hearts "6" 6; hearts "5" 5]) gf)
    by (eexists; vm_compute; reflexivity).
  destruct Hrun as [gf Hrun]. exists gf. split; [exact Hrun|].
  destruct (dealer_draws_to_17 _ _ _ _ _ _ _ _ _ _ Hrun)
    as (_ & H17 & Hb & _).
  split; [exact H17 | exact Hb].
Defined.

(** [TimidPlayer] never answers outside the offered actions. *)
Lemma timid_bounded (split_rule : Card -> Card -> bool) :
  bounded_strays timid_get_action split_rule (fun _ => 0%nat).
Proof.
  intros s cards cansplit seen.
  cbv beta iota zeta delta [timid_get_action].
  split; [lia|]. left.
  unfold legal_actions. apply in_or_app. left. simpl. tauto.
Qed.

Lemma play_ends_within_fuel_witness :
  is_out_of_fuel
    (play timid_get_action same_value 3 ThePlayer PlayerCards
          (mkGame [hearts "5" 5] 2 [hearts "10" 10; hearts "6" 6]
                  [spades "2" 2; spades "3" 3] tt [])
          [spades "2" 2; spades "3" 3] true) = false.
Proof.
  apply (play_ends_within_fuel timid_get_action same_value (fun _ => 0%nat)).
  - apply timid_bounded.
  - simpl. lia.
Defined.

(** [RolloutPlayer]: an answer outside the offered actions can only
    come from the queue, which it shortens; [random.choice] picks among
    the offered actions. *)
Lemma rollout_bounded (split_rule : Card -> Card -> bool) :
  bounded_strays rollout_get_action split_rule
                 (fun s => length (queued_actions s)).
Proof.
  intros s cards cansplit seen.
  cbv beta zeta delta [rollout_get_action].
  destruct (queued_actions s) as [|act rest];
    cbv beta iota; cbn [queued_actions length].
  - split; [lia|]. left. apply nth_In. apply Nat.mod_upper_bound.
    unfold legal_actions. rewrite length_app. simpl. lia.
  - split; [lia|]. right. lia.
Qed.

(** X12. A run played by [RolloutPlayer] always ends: with fuel for the
    queued actions, the cards of the deck and two more iterations, it
    ends with its hands or with the error of an empty deck. *)
Theorem rollout_play_ends (split_rule : Card -> Card -> bool)
    fuel who r (g : Game Rollout) cards cansplit :
  (length (queued_actions (agent g)) + length (deck g) + 2 <= fuel)%nat ->
  is_out_of_fuel (play rollout_get_action split_rule fuel who r g cards
                       cansplit) = false.
Proof.
  intros Hf.
  apply (play_terminates rollout_get_action split_rule
           (fun s => length (queued_actions s)) (rollout_bounded split_rule)).
  destruct cansplit; simpl; lia.
Qed.

Lemma rollout_play_ends_witness :
  is_out_of_fuel
    (play rollout_get_action same_value 9 ThePlayer PlayerCards
          split_eights (player_cards split_eights) true) = false.
Proof.
  apply (rollout_play_ends same_value 9 ThePlayer PlayerCards split_eights).
  simpl. lia.
Defined.

Lemma play_loops_on_strays_witness :
  exists gf,
    play stubborn_get_action same_value 7 ThePlayer PlayerCards
         (mkGame [hearts "5" 5] 2 [hearts "10" 10; hearts "6" 6]
                 [spades "2" 2; spades "3" 3] tt [])
         [spades "2" 2; spades "3" 3] true = OutOfFuel gf /\
    deck gf = [hearts "5" 5] /\ bet gf = 2 /\
    length (asked gf) = 7%nat.
Proof.
  apply (play_loops_on_strays stubborn_get_action same_value 7 PlayerCards
           (mkGame [hearts "5" 5] 2 [hearts "10" 10; hearts "6" 6]
                   [spades "2" 2; spades "3" 3] tt [])
           [spades "2" 2; spades "3" 3] true).
  - reflexivity.
  - intros s seen. vm_compute. intuition discriminate.
Defined.

Lemma play_shows_first_dealer_card_witness :
  dealer_cards
    (game_of (play rollout_get_action same_value 5 ThePlayer PlayerCards
                   split_eights (player_cards split_eights) true))
  = [hearts "10" 10; hearts "6" 6].
Proof.
  apply (play_shows_first_dealer_card rollout_get_action same_value 5
           ThePlayer PlayerCards split_eights (player_cards split_eights)
           true).
  discriminate.
Defined.

(** ** Properties of [round] and [continue_round] *)

Section RoundsFacts.

Context {AgentState : Type}.
Variable agent_get_action :
  AgentState -> list Card -> list Action -> list Card -> Action * AgentState.
Variable agent_reset : AgentState -> AgentState.
Variable split_rule : Card -> Card -> bool.

Local Abbreviation round := (round agent_get_action agent_reset split_rule).
Local Abbreviation continue_round :=
  (continue_round agent_get_action split_rule).
Local Abbreviation play_round := (play_round agent_get_action split_rule).

(** X15. [round] starts from nothing of the game before it but the
    agent, which it resets: the bet is 2, the player gets the first and
    third card of the shuffled deck and the dealer the second and
    fourth, and the round is played on the rest. A shuffled deck of
    fewer than four cards ends the round in an [IndexError]. *)
Theorem round_deals_alternately fuel (shuffled : list Card)
    (g : Game AgentState) :
  (forall p1 d1 p2 d2 rest,
     shuffled = p1 :: d1 :: p2 :: d2 :: rest ->
     round fuel shuffled g
     = play_round fuel (mkGame rest 2 [d1; d2] [p1; p2]
                               (agent_reset (agent g)) (asked g))) /\
  ((length shuffled < 4)%nat ->
   exists g', round fuel shuffled g = IndexError g' /\ deck g' = []).
Proof.
  split.
  - intros p1 d1 p2 d2 rest ->. reflexivity.
  - intros Hshort.
    destruct shuffled as [|p1 [|d1 [|p2 [|d2 rest]]]];
      try (eexists; split; reflexivity).
    simpl in Hshort. lia.
Qed.

(** X16. [continue_round] plays on the hands and the bet it is given;
    it first deals the dealer, from the top of the shuffled deck, the
    cards missing to two, and none to a dealer who has two or more. A
    deck too short for that ends the round in an [IndexError]. *)
Theorem continue_round_tops_up fuel (shuffled player_cards dealer_cards :
    list Card) (bet : Z) (g : Game AgentState) :
  ((2 - length dealer_cards <= length shuffled)%nat ->
   continue_round fuel shuffled player_cards dealer_cards bet g
   = play_round fuel
       (mkGame (drop (2 - length dealer_cards) shuffled) bet
               (dealer_cards ++ take (2 - length dealer_cards) shuffled)
               player_cards (agent g) (asked g))) /\
  ((length shuffled < 2 - length dealer_cards)%nat ->
   exists g',
     continue_round fuel shuffled player_cards dealer_cards bet g
     = IndexError g' /\ deck g' = []).
Proof.
  destruct dealer_cards as [|a [|b dc]]; simpl.
  - destruct shuffled as [|x [|y rest]]; simpl; split;
      try (intros; lia); try (intros; reflexivity);
      intros _; eexists; split; reflexivity.
  - destruct shuffled as [|x rest]; simpl; split;
      try (intros; lia); try (intros; reflexivity);
      intros _; eexists; split; reflexivity.
  - split; [|intros; lia]. intros _.
    unfold Rounds.continue_round. simpl. rewrite app_nil_r. reflexivity.
Qed.

End RoundsFacts.

(** ** Properties of the unseen deck *)

Section Unseen.

Implicit Types (l deck cards : list Card) (x p : Card).

Lemma remove_first l x :
  match remove l x with
  | Some l' =>
      exists pre item post,
        l = pre ++ item :: post /\ l' = pre ++ post /\
        card_eqb item x = true /\
        Forall (fun c => card_eqb c x = false) pre
  | None => Forall (fun c => card_eqb c x = false) l
  end.
Proof.
  induction l as [|item rest IH]; simpl; [constructor|].
  destruct (card_eqb item x) eqn:He.
  - exists [], item, rest. simpl. repeat split; [exact He | constructor].
  - destruct (remove rest x) as [rest'|].
    + destruct IH as (pre & it & post & -> & -> & Hit & Hpre).
      exists (item :: pre), it, post. simpl.
      repeat split; [exact Hit | constructor; assumption].
    + constructor; assumption.
Qed.

(** X17. [list.remove] with the equality of cards takes out the first
    card of the same suit and rank as the given one, whatever its value,
    and keeps the other cards in order; it fails exactly when the list
    has no card of that suit and rank. *)
Theorem remove_takes_first_match l x :
  (forall l',
     remove l x = Some l' <->
     exists pre item post,
       l = pre ++ item :: post /\ l' = pre ++ post /\
       face item = face x /\ Forall (fun c => face c <> face x) pre) /\
  (remove l x = None <-> Forall (fun c => face c <> face x) l).
Proof.
  assert (Hf : forall l0,
            Forall (fun c => card_eqb c x = false) l0 <->
            Forall (fun c => face c <> face x) l0).
  { intros l0.
    split; intros H; (eapply Forall_impl; [exact H|]); intros c Hc;
      simpl in *.
    - intros He. apply card_eqb_face in He. congruence.
    - destruct (card_eqb c x) eqn:E; [|reflexivity].
      apply card_eqb_face in E. contradiction. }
  pose proof (remove_first l x) as Hr.
  split.
  - intros l'. split.
    + intros Hsome. rewrite Hsome in Hr.
      destruct Hr as (pre & item & post & Hl & Hl' & Hit & Hpre).
      exists pre, item, post. rewrite <- card_eqb_face, <- Hf. tauto.
    + intros (pre & item & post & -> & -> & Hit & Hpre).
      apply card_eqb_face in Hit. apply Hf in Hpre. clear Hr.
      induction Hpre as [|c pre Hc _ IH]; simpl.
      * rewrite Hit. reflexivity.
      * rewrite Hc, IH. reflexivity.
  - split.
    + intros Hnone. rewrite Hnone in Hr. apply Hf. exact Hr.
    + intros Hall. destruct (remove l x) as [l'|]; [|reflexivity].
      destruct Hr as (pre & item & post & -> & _ & Hit & _).
      apply Hf in Hall. apply Forall_app in Hall. destruct Hall as [_ Hall].
      inversion Hall as [|? ? Hno _]. congruence.
Qed.

Lemma remove_all_removed cards : forall deck d,
  remove_all deck cards = Some d ->
  exists removed,
    Permutation deck (removed ++ d) /\ map face removed = map face cards.
Proof.
  induction cards as [|p rest IH]; intros deck d; simpl.
  { intros [= <-]. exists []. split; reflexivity. }
  pose proof (remove_first deck p) as Hr.
  destruct (remove deck p) as [deck'|]; [|discriminate].
  destruct Hr as (pre & item & post & -> & -> & Hit & _).
  intros Hrest. destruct (IH _ _ Hrest) as (removed & Hperm & Hfaces).
  exists (item :: removed). split.
  - simpl. rewrite <- Hperm. symmetry. apply Permutation_middle.
  - simpl. rewrite Hfaces. apply card_eqb_face in Hit. rewrite Hit.
    reflexivity.
Qed.

Lemma remove_all_missing cards : forall deck p,
  In p cards ->
  (forall c, In c deck -> face c <> face p) ->
  remove_all deck cards = None.
Proof.
  induction cards as [|p0 rest IH]; intros deck p Hin Hno; simpl.
  { destruct Hin. }
  pose proof (remove_first deck p0) as Hr.
  destruct (remove deck p0) as [deck'|]; [|reflexivity].
  destruct Hr as (pre & item & post & -> & -> & Hit & _).
  destruct Hin as [->|Hin].
  - exfalso. apply card_eqb_face in Hit.
    apply (Hno item); [|exact Hit].
    apply in_or_app. right. left. reflexivity.
  - apply (IH _ p Hin). intros c Hc. apply Hno.
    apply in_app_or in Hc. apply in_or_app.
    destruct Hc as [Hc|Hc]; [left | right; right]; exact Hc.
Qed.

(** X18. The deck the search agent simulates with is its own deck less
    one card of the same suit and rank for every card of the hand and
    every visible dealer card, the others kept; building it fails when a
    seen card has no card of its suit and rank in the deck. *)
Theorem unseen_deck_removes_seen deck cards (dealer_cards : list Card) :
  (forall d,
     unseen_deck deck cards dealer_cards = Some d ->
     exists removed,
       Permutation deck (removed ++ d) /\
       map face removed = map face (cards ++ dealer_cards) /\
       (length d + length cards + length dealer_cards = length deck)%nat) /\
  (forall p,
     In p (cards ++ dealer_cards) ->
     (forall c, In c deck -> face c <> face p) ->
     unseen_deck deck cards dealer_cards = None).
Proof.
  unfold unseen_deck. split.
  - intros d Hd.
    destruct (remove_all deck cards) as [deck'|] eqn:H1; [|discriminate].
    destruct (remove_all_removed _ _ _ H1) as (r1 & Hp1 & Hf1).
    destruct (remove_all_removed _ _ _ Hd) as (r2 & Hp2 & Hf2).
    exists (r1 ++ r2). split; [|split].
    + rewrite Hp1, Hp2, app_assoc. reflexivity.
    + rewrite !map_app, Hf1, Hf2. reflexivity.
    + apply Permutation_length in Hp1, Hp2.
      rewrite !length_app in *.
      apply (f_equal (@length _)) in Hf1, Hf2.
      rewrite !length_map in *. lia.
  - intros p Hin Hno. apply in_app_or in Hin.
    destruct (remove_all deck cards) as [deck'|] eqn:H1; [|reflexivity].
    destruct Hin as [Hin|Hin].
    + rewrite (remove_all_missing cards deck p Hin Hno) in H1. discriminate H1.
    + apply (remove_all_missing _ _ p Hin).
      destruct (remove_all_removed _ _ _ H1) as (r1 & Hp1 & _).
      intros c Hc. apply Hno.
      apply (Permutation_in c (Permutation_sym Hp1)).
      apply in_or_app. right. exact Hc.
Qed.

End Unseen.

(** A deck with two cards of one suit and rank, as the preset "low" has
    them: removing the second by equality takes the first. *)
Example remove_takes_other_card :
  remove [hearts "3" 3; hearts "3" 4; hearts "Ace" 11] (hearts "3" 4)
  = Some [hearts "3" 4; hearts "Ace" 11].
Proof. reflexivity. Qed.

(** ** The two split rules *)

Section SplitRules.

Lemma in_generate_deck suits ranks c :
  In c (generate_deck suits ranks) ->
  exists suit rv, In rv ranks /\ c = mkCard suit (fst rv) (snd rv).
Proof.
  unfold generate_deck. rewrite in_flat_map.
  intros (suit & _ & Hc). apply in_map_iff in Hc.
  destruct Hc as (rv & <- & Hrv). exists suit, rv. tauto.
Qed.

Lemma rank_fixes_value (ranks : list (string * Z)) :
  List.NoDup (map fst ranks) ->
  forall x y, In x ranks -> In y ranks -> fst x = fst y -> snd x = snd y.
Proof.
  induction ranks as [|r rest IH]; intros Hnd x y Hx Hy He;
    [destruct Hx|].
  simpl in Hnd. inversion Hnd as [|? ? Hnot Hnd']; subst.
  destruct Hx as [<-|Hx], Hy as [<-|Hy].
  - reflexivity.
  - exfalso. apply Hnot. rewrite He. apply in_map. exact Hy.
  - exfalso. apply Hnot. rewrite <- He. apply in_map. exact Hx.
  - apply IH; assumption.
Qed.

(** X19. On the cards of a generated deck whose rank labels are listed
    once each, two cards of the same rank have the same value, so a hand
    that may be split under the rank rule may be split under the value
    rule. *)
Theorem rank_split_is_value_split suits ranks cards cansplit :
  List.NoDup (map fst ranks) ->
  (forall c, In c cards -> In c (generate_deck suits ranks)) ->
  In SPLIT (legal_actions same_rank cards cansplit) ->
  In SPLIT (legal_actions same_value cards cansplit).
Proof.
  intros Hnd Hdeck Hin.
  apply split_legal_iff in Hin. apply split_legal_iff.
  destruct Hin as (Hlen & Hcs & a & b & -> & Hr).
  split; [exact Hlen|]. split; [exact Hcs|]. exists a, b.
  split; [reflexivity|].
  destruct (in_generate_deck suits ranks a) as (sa & ra & Hra & ->);
    [apply Hdeck; simpl; tauto|].
  destruct (in_generate_deck suits ranks b) as (sb & rb & Hrb & ->);
    [apply Hdeck; simpl; tauto|].
  unfold same_rank in Hr. unfold same_value. simpl in *.
  apply String.eqb_eq in Hr. apply Z.eqb_eq.
  exact (rank_fixes_value ranks Hnd ra rb Hra Hrb Hr).
Qed.

End SplitRules.

Lemma rank_split_is_value_split_witness :
  In SPLIT (legal_actions same_value
              [hearts "King" 10; spades "King" 10] true).
Proof.
  apply (rank_split_is_value_split default_suits default_ranks).
  - repeat constructor; simpl; intuition discriminate.
  - intros c Hc. unfold generate_deck. apply in_flat_map.
    destruct Hc as [<-|[<-|[]]].
    + exists "Hearts"%string. split; [simpl; tauto|].
      apply in_map_iff. exists ("King"%string, 10). split; [reflexivity|].
      simpl. tauto.
    + exists "Spades"%string. split; [simpl; tauto|].
      apply in_map_iff. exists ("King"%string, 10). split; [reflexivity|].
      simpl. tauto.
  - vm_compute. tauto.
Defined.

(** ** Further properties of the search tree *)

Section Growth.

Implicit Types (h : Store) (n : MCTSNode).

Lemma expand_spec actions : forall h self n,
  h !! self = Some n ->
  exists h',
    expand h self actions = Some h' /\
    length h' = (length h + length actions)%nat /\
    h' !! self
    = Some (mkNode (parent n) (action_path n)
                   (children n ++ seq (length h) (length actions))
                   (total n) (visits n)) /\
    (forall i a,
       actions !! i = Some a ->
       h' !! (length h + i)%nat
       = Some (mkNode (Some self) (action_path n ++ [a]) [] 0%Q 0)) /\
    (forall j, (j < length h)%nat -> j <> self -> h' !! j = h !! j).
Proof.
  induction actions as [|a rest IH]; intros h self n Hn; simpl.
  - exists h. split; [reflexivity|]. split; [lia|].
    rewrite app_nil_r. split; [destruct n; exact Hn|].
    split; [intros i a' Hi; discriminate Hi | reflexivity].
  - rewrite Hn.
    pose proof (lookup_lt_Some _ _ _ Hn) as Hlt.
    set (child := mkNode (Some self) (action_path n ++ [a]) [] 0%Q 0).
    set (h1 := <[self := add_child (length h) n]> (h ++ [child])).
    assert (Hlen1 : length h1 = S (length h)).
    { unfold h1. rewrite length_insert, length_app. simpl. lia. }
    assert (Hn1 : h1 !! self = Some (add_child (length h) n)).
    { unfold h1. apply list_lookup_insert_eq. rewrite length_app. lia. }
    destruct (IH h1 self _ Hn1) as (h' & Hrun & Hlen & Hself & Hnew & Hold).
    exists h'. split; [exact Hrun|]. split; [lia|]. split; [|split].
    + rewrite Hself. simpl. rewrite Hlen1, <- app_assoc. reflexivity.
    + intros [|i] a' Hi; simpl in Hi.
      * injection Hi as <-. rewrite Nat.add_0_r.
        rewrite (Hold (length h)) by lia.
        unfold h1. rewrite list_lookup_insert_ne by lia.
        rewrite lookup_app_r by lia. rewrite Nat.sub_diag. reflexivity.
      * replace (length h + S i)%nat with (length h1 + i)%nat by lia.
        rewrite (Hnew i a' Hi). reflexivity.
    + intros j Hj Hne. rewrite (Hold j) by lia.
      unfold h1. rewrite list_lookup_insert_ne by congruence.
      apply lookup_app_l. exact Hj.
Qed.

(** X20. [expand] on a node of the store makes one new node per action,
    in the order of the actions: each new node has the expanded node as
    its parent, the parent's action path followed by its action, no
    child, no visit and a total of zero; their addresses are appended to
    the children of the expanded node, every other node is left as it
    was, and parents stay older than their children. *)
Theorem expand_adds_children h self n actions :
  h !! self = Some n ->
  exists h',
    expand h self actions = Some h' /\
    length h' = (length h + length actions)%nat /\
    h' !! self
    = Some (mkNode (parent n) (action_path n)
                   (children n ++ seq (length h) (length actions))
                   (total n) (visits n)) /\
    (forall i a,
       actions !! i = Some a ->
       h' !! (length h + i)%nat
       = Some (mkNode (Some self) (action_path n ++ [a]) [] 0%Q 0)) /\
    (forall j, (j < length h)%nat -> j <> self -> h' !! j = h !! j) /\
    (parents_older h -> parents_older h').
Proof.
  intros Hn.
  destruct (expand_spec actions h self n Hn)
    as (h' & Hrun & Hlen & Hself & Hnew & Hold).
  exists h'. repeat (split; [assumption|]).
  intros Hwf. exact (parents_older_expand actions h self h' Hwf Hrun).
Qed.

End Growth.

Lemma expand_adds_children_witness :
  exists h',
    expand [root_node] 0 [HIT; STAND; DOUBLE_DOWN] = Some h' /\
    length h' = 4%nat /\
    h' !! 2%nat = Some (mkNode (Some 0%nat) [STAND] [] 0%Q 0).
Proof.
  destruct (expand_adds_children [root_node] 0 root_node
              [HIT; STAND; DOUBLE_DOWN] eq_refl)
    as (h' & Hrun & Hlen & _ & Hnew & _ & _).
  exists h'. split; [exact Hrun|]. split; [exact Hlen|].
  exact (Hnew 1%nat STAND eq_refl).
Defined.

Section Choice.

Context {F : Type} {ops : FloatOps F}.

Hypothesis fgt_irrefl : forall x : F, fgt x x = false.
Hypothesis fgt_trans :
  forall x y z : F, fgt x y = true -> fgt y z = true -> fgt x z = true.

Variable h : Store.

(** X22. After a node without children is expanded with at least one
    action, [select_child] returns its first new child, whatever the
    iteration count. *)
Theorem select_child_after_expand self n action rest h'
    (num_iterations : positive) :
  h !! self = Some n ->
  children n = [] ->
  expand h self (action :: rest) = Some h' ->
  select_child h' self num_iterations = Some (Some (length h)) /\
  h' !! length h
  = Some (mkNode (Some self) (action_path n ++ [action]) [] 0%Q 0).
Proof.
  intros Hn Hnone Hrun.
  destruct (expand_spec (action :: rest) h self n Hn)
    as (h2 & Hrun2 & _ & Hself & Hnew & _).
  assert (h2 = h') by congruence. subst h2.
  pose proof (Hnew 0%nat action eq_refl) as Hfirst.
  rewrite Nat.add_0_r in Hfirst.
  split; [|exact Hfirst].
  unfold select_child. rewrite Hself, Hnone. cbn [children app seq length].
  cbn [select_loop]. rewrite Hfirst. reflexivity.
Qed.

Lemma max_by_score_spec candidates : forall seen best,
  (forall c, In c candidates -> is_Some (h !! c)) ->
  leads_by_score h seen best ->
  match max_by_score h candidates best with
  | Some (Some r) =>
      In r (seen ++ candidates) /\
      exists rn, h !! r = Some rn /\
        forall c cn, In c (seen ++ candidates) -> h !! c = Some cn ->
          fgt (score cn) (score rn) = false
  | Some None => seen ++ candidates = []
  | None => False
  end.
Proof.
  induction candidates as [|c rest IH]; intros seen best Hres Hlead; simpl.
  - rewrite app_nil_r. destruct best as [[m v]|]; simpl; [|exact Hlead].
    destruct Hlead as (Hin & mn & Hm & -> & Hmax). eauto.
  - destruct (Hres c (or_introl eq_refl)) as [cn Hc]. rewrite Hc.
    assert (Hres' : forall c', In c' rest -> is_Some (h !! c')).
    { intros c' Hc'. apply Hres. right. exact Hc'. }
    replace (seen ++ c :: rest) with ((seen ++ [c]) ++ rest)
      by (rewrite <- app_assoc; reflexivity).
    destruct best as [[m v]|].
    + destruct Hlead as (Hin & mn & Hm & -> & Hmax).
      destruct (fgt (score cn) (score mn)) eqn:Hgt;
        apply IH; try exact Hres'; simpl.
      * split; [apply in_or_app; right; left; reflexivity|].
        exists cn. split; [exact Hc|]. split; [reflexivity|].
        intros c' cn' Hin' Hc'. apply in_app_or in Hin'.
        destruct Hin' as [Hin'|[<-|[]]].
        -- destruct (fgt (score cn') (score cn)) eqn:Hgt'; [|reflexivity].
           rewrite <- (Hmax c' cn' Hin' Hc'). symmetry.
           exact (fgt_trans _ _ _ Hgt' Hgt).
        -- replace cn' with cn by congruence. apply fgt_irrefl.
      * split; [apply in_or_app; left; exact Hin|].
        exists mn. split; [exact Hm|]. split; [reflexivity|].
        intros c' cn' Hin' Hc'. apply in_app_or in Hin'.
        destruct Hin' as [Hin'|[<-|[]]]; [exact (Hmax c' cn' Hin' Hc')|].
        replace cn' with cn by congruence. exact Hgt.
    + simpl in Hlead. subst seen. apply IH; [exact Hres'|]. simpl.
      split; [left; reflexivity|].
      exists cn. split; [exact Hc|]. split; [reflexivity|].
      intros c' cn' [<-|[]] Hc'. replace cn' with cn by congruence.
      apply fgt_irrefl.
Qed.

(** X21. On a node with children, each in the store and with an action
    path that is not empty, [best_action] returns the last action of the
    path of a child whose score no child's score exceeds; on a node
    without children the call fails. *)
Theorem best_action_spec self n :
  h !! self = Some n ->
  (forall c, In c (children n) ->
             exists cn, h !! c = Some cn /\ action_path cn <> []) ->
  (children n = [] -> best_action h self = None) /\
  (children n <> [] ->
   exists c cn a,
     best_action h self = Some a /\
     child_of h n c cn /\ last (action_path cn) = Some a /\
     forall c' cn', child_of h n c' cn' ->
                    fgt (score cn') (score cn) = false).
Proof.
  intros Hn Hkids. unfold best_action. rewrite Hn. split.
  - intros ->. reflexivity.
  - intros Hne.
    assert (Hres : forall c, In c (children n) -> is_Some (h !! c)).
    { intros c Hc. destruct (Hkids c Hc) as (cn & Hcn & _). eauto. }
    pose proof (max_by_score_spec (children n) [] None Hres eq_refl) as Hsel.
    destruct (max_by_score h (children n) None) as [[r|]|];
      simpl in Hsel; try contradiction.
    destruct Hsel as (Hr & rn & Hrn & Hmax).
    destruct (Hkids r Hr) as (rn' & Hrn' & Hpath).
    assert (rn' = rn) by congruence. subst rn'.
    rewrite Hrn.
    destruct (last (action_path rn)) as [a|] eqn:Hlast.
    + exists r, rn, a. split; [reflexivity|].
      split; [split; assumption|]. split; [exact Hlast|].
      intros c' cn' [Hin Hc']. exact (Hmax c' cn' Hin Hc').
    + apply last_None in Hlast. contradiction.
Qed.

End Choice.

Lemma select_child_after_expand_witness :
  exists h',
    expand [root_node] 0 [HIT; STAND] = Some h' /\
    select_child (F := option R) h' 0 3%positive = Some (Some 1%nat).
Proof.
  eexists. split; [reflexivity|].
  exact (proj1 (select_child_after_expand (ops := ideal_ops) [root_node] 0
                  root_node HIT [STAND] _ 3%positive
                  eq_refl eq_refl eq_refl)).
Defined.

Lemma best_action_spec_witness :
  exists c cn a,
    best_action (F := option R) small_tree 0 = Some a /\
    child_of small_tree (mkNode None [] [1; 2]%nat 2%Q 1) c cn /\
    last (action_path cn) = Some a.
Proof.
  assert (H0 : small_tree !! 0%nat = Some (mkNode None [] [1; 2]%nat 2%Q 1))
    by reflexivity.
  assert (Hkids : forall c, In c [1; 2]%nat ->
            exists cn, small_tree !! c = Some cn /\ action_path cn <> []).
  { intros c [<-|[<-|[]]]; eexists; (split; [reflexivity | discriminate]). }
  destruct (best_action_spec (ops := ideal_ops) ideal_gt_irrefl
              ideal_gt_trans small_tree 0%nat _ H0 Hkids) as [_ Hsome].
  destruct (Hsome ltac:(discriminate)) as (c & cn & a & Hb & Hc & Hl & _).
  exists c, cn, a. tauto.
Defined.

(** ** Rounds end *)

Section RoundEnds.

Context {AgentState : Type}.
Variable agent_get_action :
  AgentState -> list Card -> list Action -> list Card -> Action * AgentState.
Variable agent_reset : AgentState -> AgentState.
Variable split_rule : Card -> Card -> bool.
Variable budget : AgentState -> nat.
Hypothesis budget_bounds : bounded_strays agent_get_action split_rule budget.

Implicit Types (g : Game AgentState).

(** The player's hands and then the dealer's are played with the same
    fuel: what the first run leaves of the budget and of the deck is
    within what it found. *)
Lemma play_round_ends fuel g :
  (budget (agent g) + length (deck g) + 2 <= fuel)%nat ->
  is_out_of_fuel (play_round agent_get_action split_rule fuel g) = false.
Proof.
  intros Hf. unfold play_round.
  destruct (play_terminates agent_get_action split_rule budget budget_bounds
              fuel ThePlayer PlayerCards g (player_cards g) true Hf)
    as [Hno Hle].
  destruct (play agent_get_action split_rule fuel ThePlayer PlayerCards g
                 (player_cards g) true) as [rp g1|g1|g1];
    simpl in *; [|reflexivity|discriminate].
  assert (Hf1 : (budget (agent g1) + length (deck g1) + 2 <= fuel)%nat)
    by lia.
  pose proof (play_terminates agent_get_action split_rule budget
                budget_bounds fuel TheDealer DealerCards g1
                (dealer_cards g1) true Hf1) as [Hno1 _].
  destruct (play agent_get_action split_rule fuel TheDealer DealerCards g1
                 (dealer_cards g1) true) as [rd g2|g2|g2];
    simpl in *; [reflexivity|reflexivity|discriminate].
Qed.

Lemma top_up_frame n : forall g,
  is_out_of_fuel (top_up n g) = false /\
  agent (game_of (top_up n g)) = agent g /\
  (length (deck (game_of (top_up n g))) <= length (deck g))%nat.
Proof.
  induction n as [|n IH]; intros g; simpl; [repeat split; lia|].
  destruct (length (dealer_cards g) <? 2)%nat; [|simpl; repeat split; lia].
  destruct (deal g DealerCards (dealer_cards g)) as [d g'|g'|g'] eqn:Hd;
    simpl.
  - apply (deal_done split_rule) in Hd. destruct Hd as (card & Hdk & _ & _ & Hag & _).
    destruct (IH g') as (Hno & Hag' & Hle).
    rewrite Hdk. simpl. rewrite Hag', Hag. repeat split; [exact Hno|lia].
  - apply deal_index_error in Hd. destruct Hd as [-> _].
    repeat split; lia.
  - pose proof (deal_not_out_of_fuel g DealerCards (dealer_cards g)) as Hno.
    rewrite Hd in Hno. discriminate.
Qed.

(** X23. A round continued from given hands always ends when the agent's
    answers outside the offered actions are bounded: with fuel for that
    bound, the size of the shuffled deck and two more iterations,
    [continue_round] returns the winnings or raises the error of an
    empty deck. *)
Theorem continue_round_ends fuel shuffled player_cards dealer_cards bet g :
  (budget (agent g) + length shuffled + 2 <= fuel)%nat ->
  is_out_of_fuel
    (continue_round agent_get_action split_rule fuel shuffled
                    player_cards dealer_cards bet g) = false.
Proof.
  intros Hf. unfold continue_round.
  set (g0 := mkGame shuffled bet dealer_cards player_cards (agent g)
                    (asked g)).
  destruct (top_up_frame 2 g0) as (Hno & Hag & Hle).
  destruct (top_up 2 g0) as [u g1|g1|g1];
    cbn [bind game_of is_out_of_fuel] in *; [|reflexivity|discriminate].
  apply play_round_ends. rewrite Hag. simpl in Hle. simpl. lia.
Qed.

(** X24. A round played from a fresh deal always ends under the same
    bound, counted from the agent as [reset] leaves it. *)
Theorem round_ends fuel shuffled g :
  (budget (agent_reset (agent g)) + length shuffled + 2 <= fuel)%nat ->
  is_out_of_fuel
    (round agent_get_action agent_reset split_rule fuel shuffled g) = false.
Proof.
  intros Hf. unfold round.
  set (g0 := mkGame shuffled 2 [] [] (agent_reset (agent g)) (asked g)).
  assert (Hstep : forall (g1 : Game AgentState) r cards
                         (k : list Card -> Game AgentState
                              -> outcome (Game AgentState) Q),
    (forall cards' g2,
       agent g2 = agent g1 -> (length (deck g2) <= length (deck g1))%nat ->
       is_out_of_fuel (k cards' g2) = false) ->
    is_out_of_fuel (bind (deal g1 r cards) k) = false).
  { intros g1 r cards k Hk.
    destruct (deal g1 r cards) as [d g2|g2|g2] eqn:Hd; simpl.
    - apply (deal_done split_rule) in Hd. destruct Hd as (card & Hdk & _ & _ & Hag & _).
      apply Hk; [exact Hag|]. rewrite Hdk. simpl. lia.
    - reflexivity.
    - pose proof (deal_not_out_of_fuel g1 r cards) as Hno.
      rewrite Hd in Hno. discriminate. }
  apply Hstep. intros p1 g1 Ha1 Hl1.
  apply Hstep. intros d1 g2 Ha2 Hl2.
  apply Hstep. intros p2 g3 Ha3 Hl3.
  apply Hstep. intros d2 g4 Ha4 Hl4.
  apply play_round_ends. rewrite Ha4, Ha3, Ha2, Ha1. simpl in Hl1.
  simpl. lia.
Qed.

End RoundEnds.

Lemma continue_round_ends_witness :
  is_out_of_fuel
    (continue_round rollout_get_action same_value 6
       [hearts "5" 5; hearts "7" 7; hearts "8" 8]
       [spades "2" 2; spades "3" 3] [hearts "10" 10] 2
       (mkGame [] 0 [] [] (mkRollout [HIT] [] [1%nat]) [])) = false.
Proof.
  apply (continue_round_ends rollout_get_action same_value
           (fun s => length (queued_actions s)) (rollout_bounded same_value)).
  simpl. lia.
Defined.

Lemma round_ends_witness :
  is_out_of_fuel
    (round timid_get_action (fun s => s) same_rank 6
       [spades "2" 2; hearts "10" 10; spades "3" 3; hearts "7" 7]
       (mkGame [] 0 [] [] tt [])) = false.
Proof.
  apply (round_ends timid_get_action (fun s => s) same_rank
           (fun _ => 0%nat) (timid_bounded same_rank)).
  simpl. lia.
Defined.

(** ** The search of [MCTSPlayer.get_action] *)

Section Planning.

Context {F : Type} {ops : FloatOps F}.
Variable actions : list Action.

Lemma lookup_In {A : Type} (l : list A) : forall i a,
  l !! i = Some a -> In a l.
Proof.
  induction l as [|x l IH]; intros [|i] a; simpl; try discriminate.
  - intros [= <-]. left. reflexivity.
  - intros Hi. right. exact (IH i a Hi).
Qed.

Lemma labelled_shape h h' :
  (forall j, shape <$> h' !! j = shape <$> h !! j) ->
  labelled actions h -> labelled actions h'.
Proof.
  intros Hsame (rn & Hr & Hp & Hc).
  pose proof (Hsame 0%nat) as H0. rewrite Hr in H0.
  destruct (h' !! 0%nat) as [rn'|] eqn:Hr'; [|discriminate].
  injection H0 as Hp' Hc'.
  exists rn'. split; [exact Hr'|]. split; [congruence|].
  intros c Hin. rewrite Hc' in Hin.
  destruct (Hc c Hin) as (cn & a & Hcn & Hpa & Ha).
  pose proof (Hsame c) as Hs. rewrite Hcn in Hs.
  destruct (h' !! c) as [cn'|] eqn:Hcn'; [|discriminate].
  injection Hs as Hpc _. exists cn', a. split; [reflexivity|].
  split; [congruence|exact Ha].
Qed.

Lemma backpropogate_shape fuel : forall h self value h',
  backpropogate fuel h self value = Some h' ->
  forall j, shape <$> h' !! j = shape <$> h !! j.
Proof.
  induction fuel as [|fuel IH]; intros h self value h'; [discriminate|].
  simpl. destruct (h !! self) as [n|] eqn:Hn; [|discriminate].
  assert (Hone : forall j,
            shape <$> <[self := bump value n]> h !! j = shape <$> h !! j).
  { intros j. destruct (decide (j = self)) as [->|Hne].
    - rewrite list_lookup_insert_eq by (eapply lookup_lt_Some; exact Hn).
      rewrite Hn. reflexivity.
    - rewrite list_lookup_insert_ne by congruence. reflexivity. }
  destruct (parent n) as [p|].
  - intros Hrun j. rewrite (IH _ _ _ _ Hrun j). apply Hone.
  - intros [= <-]. exact Hone.
Qed.

Lemma labelled_expand_root h :
  expand [root_node] 0 actions = Some h -> labelled actions h.
Proof.
  intros Hrun.
  destruct (expand_spec actions [root_node] 0%nat root_node eq_refl)
    as (h' & Hrun' & _ & Hself & Hnew & _).
  rewrite Hrun in Hrun'. injection Hrun' as <-.
  eexists. split; [exact Hself|]. split; [reflexivity|].
  simpl. intros c Hin. apply in_seq in Hin.
  destruct (lookup_lt_is_Some_2 actions (c - 1)%nat ltac:(lia)) as [a Ha].
  pose proof (Hnew _ _ Ha) as Hc.
  replace (length [root_node] + (c - 1))%nat with c in Hc by (simpl; lia).
  eexists _, a. split; [exact Hc|]. split; [reflexivity|].
  eapply lookup_In. exact Ha.
Qed.

Lemma labelled_expand h self h' :
  labelled actions h -> expand h self actions = Some h' ->
  labelled actions h'.
Proof.
  intros (rn & Hr & Hp & Hc) Hrun.
  destruct (h !! self) as [n|] eqn:Hn.
  2:{ destruct actions; simpl in Hrun; [|rewrite Hn in Hrun; discriminate].
      injection Hrun as <-. exists rn. tauto. }
  destruct (expand_spec actions h self n Hn)
    as (h2 & Hrun' & _ & Hself & Hnew & Hold).
  rewrite Hrun in Hrun'. injection Hrun' as <-.
  assert (Hkept : forall c, In c (children rn) ->
            exists cn a, h' !! c = Some cn /\ action_path cn = [a] /\
                         In a actions).
  { intros c Hin. destruct (Hc c Hin) as (cn & a & Hcn & Hpa & Ha).
    destruct (decide (c = self)) as [->|Hne].
    - eexists _, a. split; [exact Hself|]. simpl.
      split; [congruence|exact Ha].
    - exists cn, a. rewrite Hold; [tauto| |exact Hne].
      eapply lookup_lt_Some. exact Hcn. }
  destruct (decide (self = 0%nat)) as [->|Hne].
  - assert (n = rn) as -> by congruence.
    eexists. split; [exact Hself|]. simpl. split; [exact Hp|].
    intros c Hin. apply in_app_or in Hin. destruct Hin as [Hin|Hin].
    + apply Hkept, Hin.
    + apply in_seq in Hin.
      destruct (lookup_lt_is_Some_2 actions (c - length h)%nat ltac:(lia))
        as [a Ha].
      pose proof (Hnew _ _ Ha) as Hcn.
      replace (length h + (c - length h))%nat with c in Hcn by lia.
      eexists _, a. split; [exact Hcn|]. simpl. rewrite Hp.
      split; [reflexivity|].
      eapply lookup_In. exact Ha.
  - exists rn. split; [|split; [exact Hp|exact Hkept]].
    rewrite Hold; [exact Hr| |congruence].
    eapply lookup_lt_Some. exact Hr.
Qed.

Lemma labelled_descend fuel : forall h selected i h' selected',
  labelled actions h ->
  descend fuel h selected i actions = Returns (h', selected') ->
  labelled actions h'.
Proof.
  induction fuel as [|fuel IH]; intros h selected i h' selected' Hl;
    [discriminate|].
  simpl. destruct (h !! selected) as [sn|]; [|discriminate].
  destruct (0 <? visits sn)%nat; [|intros [= <- <-]; exact Hl].
  destruct (select_child_at h selected i) as [[next|]|]; [| |discriminate].
  - apply IH, Hl.
  - destruct (expand h selected actions) as [h1|] eqn:He; [|discriminate].
    apply IH. eapply labelled_expand; eassumption.
Qed.

Lemma labelled_trial fuel cards dealer_cards bet h i random h' :
  labelled actions h ->
  trial fuel cards dealer_cards bet actions h i random = Returns h' ->
  labelled actions h'.
Proof.
  intros Hl. unfold trial.
  destruct (select_child_at h 0 (S i)) as [[selected|]|]; [| |]; 
    try discriminate.
  destruct (descend fuel h selected i actions) as [[h1 sel]| |] eqn:Hd;
    try discriminate.
  destruct (h1 !! sel) as [sn|]; [|discriminate].
  destruct (continue_round _ _ _ _ _ _ _ _) as [res g|g|g];
    try discriminate.
  destruct (backpropogate (S sel) h1 sel res) as [h2|] eqn:Hb;
    [|discriminate].
  intros [= <-]. eapply labelled_shape.
  - eapply backpropogate_shape. exact Hb.
  - eapply labelled_descend; eassumption.
Qed.

Lemma labelled_trials fuel cards dealer_cards bet randoms :
  forall h i h',
    labelled actions h ->
    trials fuel cards dealer_cards bet actions h i randoms = Returns h' ->
    labelled actions h'.
Proof.
  induction randoms as [|random rest IH]; intros h i h' Hl; simpl.
  - intros [= <-]. exact Hl.
  - destruct (trial fuel cards dealer_cards bet actions h i random)
      as [h1| |] eqn:Ht; try discriminate.
    apply IH. eapply labelled_trial; eassumption.
Qed.

Lemma max_by_score_in h candidates : forall best r,
  max_by_score h candidates best = Some (Some r) ->
  In r candidates \/ exists v, best = Some (r, v).
Proof.
  induction candidates as [|c rest IH]; intros best r; simpl.
  - destruct best as [[m v]|]; simpl; [|discriminate].
    intros [= <-]. right. eauto.
  - destruct (h !! c) as [cn|]; [|discriminate].
    destruct (match best with
              | Some (_, maxval) => fgt (score cn) maxval
              | None => true
              end); intros Hrun; apply IH in Hrun.
    + destruct Hrun as [Hin|[v [= <- <-]]]; auto.
    + destruct Hrun as [Hin|Hb]; auto.
Qed.

Lemma best_action_labelled h act :
  labelled actions h -> best_action h 0 = Some act -> In act actions.
Proof.
  intros (rn & Hr & _ & Hc). unfold best_action. rewrite Hr.
  destruct (max_by_score h (children rn) None) as [[c|]|] eqn:Hm;
    try discriminate.
  apply max_by_score_in in Hm. destruct Hm as [Hin|[v Hv]]; [|discriminate].
  destruct (Hc c Hin) as (cn & a & Hcn & Hpa & Ha).
  rewrite Hcn, Hpa. simpl. intros [= <-]. exact Ha.
Qed.

(** X25. Whatever the simulations bring, the answer of the search agent
    is one of the actions it was offered, and its bet is doubled exactly
    when that answer is Double-Down. *)
Theorem mcts_get_action_offered fuel deck bet randoms cards dealer_cards
    act bet' :
  mcts_get_action fuel deck bet randoms cards actions dealer_cards
  = Returns (act, bet') ->
  In act actions /\
  ((act = DOUBLE_DOWN /\ bet' = bet * 2) \/
   (act <> DOUBLE_DOWN /\ bet' = bet)).
Proof.
  unfold mcts_get_action.
  destruct (unseen_deck deck cards dealer_cards); [|discriminate].
  destruct (expand [root_node] 0 actions) as [h0|] eqn:He; [|discriminate].
  destruct (trials fuel cards dealer_cards bet actions h0 0 randoms)
    as [h| |] eqn:Ht; try discriminate.
  destruct (best_action h 0) as [a|] eqn:Hb; [|discriminate].
  intros [= <- <-]. split.
  - eapply best_action_labelled; [|exact Hb].
    eapply labelled_trials; [|exact Ht].
    apply labelled_expand_root, He.
  - destruct a; simpl; auto; right; split; congruence.
Qed.

End Planning.

(** ** The search ends *)

Section Descent.

Context {F : Type} {ops : FloatOps F}.
Variable actions : list Action.

Lemma select_loop_in h n candidates : forall best r,
  select_loop h n candidates best = Some (Some r) ->
  In r candidates \/ exists u, best = Some (r, u).
Proof.
  induction candidates as [|c rest IH]; intros best r; simpl.
  - destruct best as [[m u]|]; simpl; [|discriminate].
    intros [= <-]. right. eauto.
  - destruct (h !! c) as [cn|]; [|discriminate].
    destruct (visits cn =? 0)%nat; [intros [= <-]; auto|].
    destruct (match best with
              | Some (_, max_ucb1) => fgt (ucb1 cn n) max_ucb1
              | None => true
              end); intros Hrun; apply IH in Hrun.
    + destruct Hrun as [Hin|[u [= <- <-]]]; auto.
    + destruct Hrun as [Hin|Hb]; auto.
Qed.

Lemma select_loop_none h n candidates : forall best,
  select_loop h n candidates best = Some None ->
  candidates = [] /\ best = None.
Proof.
  induction candidates as [|c rest IH]; intros best; simpl.
  - destruct best as [[m u]|]; simpl; [discriminate|tauto].
  - destruct (h !! c) as [cn|]; [|discriminate].
    destruct (visits cn =? 0)%nat; [discriminate|].
    destruct best as [[m u]|];
      [destruct (fgt (ucb1 cn n) u)|];
      intros Hrun; apply IH in Hrun; destruct Hrun as [_ Hb]; discriminate.
Qed.

(** What [select_child] returns is a child of the node. *)
Lemma select_child_at_child h self i n r :
  h !! self = Some n -> select_child_at h self i = Some (Some r) ->
  In r (children n).
Proof.
  intros Hn. destruct i as [|i]; simpl.
  - rewrite Hn. unfold select_loop_zero.
    destruct (children n) as [|c rest]; [discriminate|].
    destruct (h !! c) as [cn|]; [|discriminate].
    destruct (visits cn =? 0)%nat; [|discriminate].
    intros [= <-]. left. reflexivity.
  - unfold select_child. rewrite Hn. intros Hrun.
    apply select_loop_in in Hrun. destruct Hrun as [Hin|[u Hu]];
      [exact Hin|discriminate].
Qed.

(** It returns [None] for a node without children only. *)
Lemma select_child_at_none h self i n :
  h !! self = Some n -> select_child_at h self i = Some None ->
  children n = [].
Proof.
  intros Hn. destruct i as [|i]; simpl.
  - rewrite Hn. unfold select_loop_zero.
    destruct (children n) as [|c rest]; [reflexivity|].
    destruct (h !! c) as [cn|]; [|discriminate].
    destruct (visits cn =? 0)%nat; discriminate.
  - unfold select_child. rewrite Hn. intros Hrun.
    apply select_loop_none in Hrun. tauto.
Qed.

(** A first child that was never visited is returned at once. *)
Lemma select_child_at_fresh h self i n c rest cn :
  h !! self = Some n -> children n = c :: rest ->
  h !! c = Some cn -> visits cn = 0%nat ->
  select_child_at h self i = Some (Some c).
Proof.
  intros Hn Hch Hc Hv. destruct i as [|i]; simpl.
  - rewrite Hn, Hch. unfold select_loop_zero. rewrite Hc, Hv. reflexivity.
  - unfold select_child. rewrite Hn, Hch. simpl. rewrite Hc, Hv.
    reflexivity.
Qed.

Lemma backpropogate_length fuel : forall h self value h',
  backpropogate fuel h self value = Some h' -> length h' = length h.
Proof.
  induction fuel as [|fuel IH]; intros h self value h'; [discriminate|].
  simpl. destruct (h !! self) as [n|]; [|discriminate].
  destruct (parent n) as [p|].
  - intros Hrun. rewrite (IH _ _ _ _ Hrun). apply length_insert.
  - intros [= <-]. apply length_insert.
Qed.

Lemma children_newer_shape h h' :
  length h' = length h ->
  (forall j, shape <$> h' !! j = shape <$> h !! j) ->
  children_newer h -> children_newer h'.
Proof.
  intros Hlen Hsame Hwf i n c Hi Hin.
  pose proof (Hsame i) as Hs. rewrite Hi in Hs.
  destruct (h !! i) as [m|] eqn:Hm; [|discriminate].
  injection Hs as _ Hc. rewrite Hc in Hin. rewrite Hlen.
  exact (Hwf i m c Hm Hin).
Qed.

Lemma children_newer_root : children_newer [root_node].
Proof.
  intros i n c Hi Hin. destruct i as [|i]; [|discriminate Hi].
  injection Hi as <-. destruct Hin.
Qed.

Lemma children_newer_expand h self h' :
  children_newer h -> expand h self actions = Some h' ->
  children_newer h'.
Proof.
  intros Hwf Hrun.
  destruct (h !! self) as [n|] eqn:Hn.
  2:{ destruct actions; simpl in Hrun; [|rewrite Hn in Hrun; discriminate].
      injection Hrun as <-. exact Hwf. }
  destruct (expand_spec actions h self n Hn)
    as (h2 & Hrun' & Hlen & Hself & Hnew & Hold).
  rewrite Hrun in Hrun'. injection Hrun' as <-.
  pose proof (lookup_lt_Some _ _ _ Hn) as Hlt.
  intros i m c Hi Hin. rewrite Hlen.
  destruct (decide (i = self)) as [->|Hne].
  - rewrite Hself in Hi. injection Hi as <-. simpl in Hin.
    apply in_app_or in Hin. destruct Hin as [Hin|Hin].
    + pose proof (Hwf self n c Hn Hin). lia.
    + apply in_seq in Hin. lia.
  - destruct (Nat.lt_ge_cases i (length h)) as [Hi'|Hi'].
    + rewrite Hold in Hi by assumption.
      pose proof (Hwf i m c Hi Hin). lia.
    + pose proof (lookup_lt_Some _ _ _ Hi) as Hi2. rewrite Hlen in Hi2.
      destruct (lookup_lt_is_Some_2 actions (i - length h)%nat ltac:(lia))
        as [a Ha].
      pose proof (Hnew _ _ Ha) as Hfresh.
      replace (length h + (i - length h))%nat with i in Hfresh by lia.
      rewrite Hfresh in Hi. injection Hi as <-. destruct Hin.
Qed.

Lemma single_root_root : single_root [root_node].
Proof.
  intros j n Hj _. destruct j as [|j]; [reflexivity|discriminate Hj].
Qed.

Lemma single_root_expand h self h' :
  single_root h -> expand h self actions = Some h' -> single_root h'.
Proof.
  intros Hsr Hrun.
  destruct (h !! self) as [n|] eqn:Hn.
  2:{ destruct actions; simpl in Hrun; [|rewrite Hn in Hrun; discriminate].
      injection Hrun as <-. exact Hsr. }
  destruct (expand_spec actions h self n Hn)
    as (h2 & Hrun' & Hlen & Hself & Hnew & Hold).
  rewrite Hrun in Hrun'. injection Hrun' as <-.
  intros j m Hj Hp.
  destruct (decide (j = self)) as [->|Hne].
  - rewrite Hself in Hj. injection Hj as <-. simpl in Hp.
    exact (Hsr self n Hn Hp).
  - destruct (Nat.lt_ge_cases j (length h)) as [Hj'|Hj'].
    + rewrite Hold in Hj by assumption. exact (Hsr j m Hj Hp).
    + pose proof (lookup_lt_Some _ _ _ Hj) as Hj2. rewrite Hlen in Hj2.
      destruct (lookup_lt_is_Some_2 actions (j - length h)%nat ltac:(lia))
        as [a Ha].
      pose proof (Hnew _ _ Ha) as Hfresh.
      replace (length h + (j - length h))%nat with j in Hfresh by lia.
      rewrite Hfresh in Hj. injection Hj as <-. discriminate Hp.
Qed.

Lemma root_visits_expand h self h' :
  (0 < length h)%nat -> expand h self actions = Some h' ->
  root_visits h' = root_visits h.
Proof.
  intros Hpos Hrun.
  destruct (h !! self) as [n|] eqn:Hn.
  2:{ destruct actions; simpl in Hrun; [|rewrite Hn in Hrun; discriminate].
      injection Hrun as <-. reflexivity. }
  destruct (expand_spec actions h self n Hn)
    as (h2 & Hrun' & _ & Hself & _ & Hold).
  rewrite Hrun in Hrun'. injection Hrun' as <-. unfold root_visits.
  destruct (decide (self = 0%nat)) as [->|Hne].
  - rewrite Hself, Hn. reflexivity.
  - rewrite Hold by (assumption || congruence). reflexivity.
Qed.

(** [backpropogate] leaves the parents as they are. *)
Lemma backpropogate_parent fuel : forall h self value h',
  backpropogate fuel h self value = Some h' ->
  forall j, parent <$> h' !! j = parent <$> h !! j.
Proof.
  induction fuel as [|fuel IH]; intros h self value h'; [discriminate|].
  simpl. destruct (h !! self) as [n|] eqn:Hn; [|discriminate].
  assert (Hone : forall j,
            parent <$> <[self := bump value n]> h !! j = parent <$> h !! j).
  { intros j. destruct (decide (j = self)) as [->|Hne].
    - rewrite list_lookup_insert_eq by (eapply lookup_lt_Some; exact Hn).
      rewrite Hn. reflexivity.
    - rewrite list_lookup_insert_ne by congruence. reflexivity. }
  destruct (parent n) as [p|].
  - intros Hrun j. rewrite (IH _ _ _ _ Hrun j). apply Hone.
  - intros [= <-]. exact Hone.
Qed.

Lemma single_root_backpropogate fuel h self value h' :
  single_root h -> backpropogate fuel h self value = Some h' ->
  single_root h'.
Proof.
  intros Hsr Hrun j n Hj Hp.
  pose proof (backpropogate_parent _ _ _ _ _ Hrun j) as Hsame.
  rewrite Hj in Hsame. destruct (h !! j) as [m|] eqn:Hm; [|discriminate].
  injection Hsame as Hpm. apply (Hsr j m Hm). congruence.
Qed.

(** In a tree with one root every walk up ends at address 0. *)
Lemma on_path_root h self :
  parents_older h -> single_root h -> (self < length h)%nat ->
  on_path h self 0.
Proof.
  intros Hpo Hsr Hlen.
  destruct (on_path_reaches_root h Hpo self Hlen)
    as (root & Hpath & rn & Hrn & Hp).
  rewrite (Hsr root rn Hrn Hp) in Hpath. exact Hpath.
Qed.

(** The loop that walks down: each iteration moves to a newer object,
    or it expands a leaf and then moves to the first of the new
    children, which was never visited. *)
Lemma descend_spec fuel : forall h selected i,
  actions <> [] -> parents_older h -> children_newer h -> single_root h ->
  (selected < length h)%nat ->
  match descend fuel h selected i actions with
  | Returns (h', selected') =>
      parents_older h' /\ children_newer h' /\ single_root h' /\
      (selected' < length h')%nat /\
      (length h <= length h' <= length h + length actions)%nat /\
      root_visits h' = root_visits h
  | Raises => True
  | Unfinished => (fuel < length h - selected + 2)%nat
  end.
Proof.
  induction fuel as [|fuel IH]; intros h selected i Hne Hpo Hcn Hsr Hsel;
    [simpl; lia|].
  simpl. destruct (lookup_lt_is_Some_2 h selected Hsel) as [sn Hsn].
  rewrite Hsn. destruct (Nat.ltb_spec 0 (visits sn)) as [Hv|Hv].
  2:{ split; [exact Hpo|]. split; [exact Hcn|]. split; [exact Hsr|].
      split; [exact Hsel|]. split; [lia|reflexivity]. }
  destruct (select_child_at h selected i) as [[next|]|] eqn:Hs; [| |exact I].
  - pose proof (select_child_at_child _ _ _ _ _ Hsn Hs) as Hin.
    pose proof (Hcn selected sn next Hsn Hin) as Hlt.
    specialize (IH h next i Hne Hpo Hcn Hsr ltac:(lia)).
    destruct (descend fuel h next i actions) as [[h' s']| |];
      [exact IH|exact I|lia].
  - pose proof (select_child_at_none _ _ _ _ Hsn Hs) as Hleaf.
    destruct (expand_spec actions h selected sn Hsn)
      as (h' & Hrun & Hlen & Hself & Hnew & Hold).
    rewrite Hrun.
    pose proof (parents_older_expand _ _ _ _ Hpo Hrun) as Hpo'.
    pose proof (children_newer_expand _ _ _ Hcn Hrun) as Hcn'.
    pose proof (single_root_expand _ _ _ Hsr Hrun) as Hsr'.
    pose proof (root_visits_expand h selected h' ltac:(lia) Hrun) as Hrv.
    destruct actions as [|a rest] eqn:Hact; [congruence|].
    pose proof (Hnew 0%nat a eq_refl) as Hfresh.
    rewrite Nat.add_0_r in Hfresh.
    destruct fuel as [|fuel]; [simpl; lia|]. simpl.
    rewrite Hself. simpl.
    destruct (Nat.ltb_spec 0 (visits sn)) as [_|Hv']; [|lia].
    rewrite (select_child_at_fresh h' selected i _ (length h)
               (seq (S (length h)) (length rest)) _ Hself
               ltac:(simpl; rewrite Hleaf; reflexivity) Hfresh eq_refl).
    destruct fuel as [|fuel]; [simpl; lia|]. simpl.
    rewrite Hfresh. simpl.
    split; [exact Hpo'|]. split; [exact Hcn'|]. split; [exact Hsr'|].
    simpl in Hlen. split; [lia|]. split; [lia|exact Hrv].
Qed.

Lemma queued_fold path : forall s,
  queued_actions (fold_left queue_action path s) = queued_actions s ++ path.
Proof.
  induction path as [|a path IH]; intros s; simpl.
  - rewrite app_nil_r. reflexivity.
  - rewrite IH. simpl. rewrite <- app_assoc. reflexivity.
Qed.

(** One pass: the simulated round and the walk back to the root have
    the fuel they need, and the pass is counted at the root. *)
Lemma trial_spec fuel cards dealer_cards bet h i random :
  actions <> [] -> parents_older h -> children_newer h -> single_root h ->
  (0 < length h)%nat ->
  match trial fuel cards dealer_cards bet actions h i random with
  | Returns h' =>
      parents_older h' /\ children_newer h' /\ single_root h' /\
      (length h <= length h' <= length h + length actions)%nat /\
      root_visits h' = S <$> root_visits h
  | Raises => True
  | Unfinished => (fuel < length h + 2)%nat
  end.
Proof.
  intros Hne Hpo Hcn Hsr Hpos. unfold trial.
  destruct (lookup_lt_is_Some_2 h 0%nat Hpos) as [rn Hrn].
  destruct (select_child_at h 0 (S i)) as [[selected|]|] eqn:Hs;
    [| exact I | exact I].
  pose proof (select_child_at_child _ _ _ _ _ Hrn Hs) as Hin.
  pose proof (Hcn 0%nat rn selected Hrn Hin) as Hlt.
  pose proof (descend_spec fuel h selected i Hne Hpo Hcn Hsr ltac:(lia))
    as Hd.
  destruct (descend fuel h selected i actions) as [[h1 sel]| |];
    [|exact I|lia].
  destruct Hd as (Hpo1 & Hcn1 & Hsr1 & Hsel & Hlen & Hrv).
  destruct (h1 !! sel) as [sn|] eqn:Hsn; [|exact I].
  set (p := fold_left queue_action (action_path sn)
                      (mkRollout [] [] (snd random))).
  assert (Hends : is_out_of_fuel
                    (continue_round rollout_get_action same_value
                       (length (action_path sn) + length (fst random) + 2)
                       (fst random) cards dealer_cards bet
                       (mkGame [] 0 [] [] p [])) = false).
  { unfold continue_round. cbn [agent asked].
    set (g0 := mkGame (fst random) bet dealer_cards cards p []).
    destruct (top_up_frame same_value 2 g0) as (Hno & Hag & Hle).
    destruct (top_up 2 g0) as [u g1|g1|g1];
      cbn [bind game_of is_out_of_fuel] in *; [|reflexivity|discriminate].
    apply (play_round_ends rollout_get_action same_value
             (fun s => length (queued_actions s))
             (rollout_bounded same_value)).
    rewrite Hag. simpl in Hle. simpl. unfold p. rewrite queued_fold.
    simpl. lia. }
  destruct (continue_round _ _ _ _ _ _ _ _) as [res g|g|g];
    [|exact I|discriminate Hends].
  destruct (backpropogate_spec (S sel) h1 sel res Hpo1 ltac:(lia) Hsel)
    as (h2 & Hrun & Hlen2 & Hon & _).
  rewrite Hrun.
  split; [exact (parents_older_backpropogate _ _ _ _ _ Hpo1 Hrun)|].
  split.
  { eapply children_newer_shape; [exact Hlen2| |exact Hcn1].
    eapply backpropogate_shape. exact Hrun. }
  split; [exact (single_root_backpropogate _ _ _ _ _ Hsr1 Hrun)|].
  split; [lia|].
  destruct (lookup_lt_is_Some_2 h1 0%nat ltac:(lia)) as [rn1 Hrn1].
  rewrite <- Hrv. unfold root_visits.
  rewrite (Hon 0%nat rn1 Hrn1 (on_path_root h1 sel Hpo1 Hsr1 Hsel)), Hrn1.
  reflexivity.
Qed.

Lemma trials_spec fuel cards dealer_cards bet randoms : forall h i,
  actions <> [] -> parents_older h -> children_newer h -> single_root h ->
  (0 < length h)%nat ->
  match trials fuel cards dealer_cards bet actions h i randoms with
  | Returns h' =>
      root_visits h' = (fun v => v + length randoms)%nat <$> root_visits h
  | Raises => True
  | Unfinished =>
      (fuel + length actions
       < length h + length actions * length randoms + 2)%nat
  end.
Proof.
  induction randoms as [|random rest IH];
    intros h i Hne Hpo Hcn Hsr Hpos; simpl.
  { destruct (root_visits h) as [v|]; simpl; [|reflexivity].
    rewrite Nat.add_0_r. reflexivity. }
  pose proof (trial_spec fuel cards dealer_cards bet h i random Hne Hpo Hcn
                Hsr Hpos) as Ht.
  assert (Hk : (0 < length actions)%nat).
  { destruct actions; [congruence|simpl; lia]. }
  destruct (trial fuel cards dealer_cards bet actions h i random)
    as [h'| |]; [|exact I|nia].
  destruct Ht as (Hpo' & Hcn' & Hsr' & Hlen & Hrv).
  specialize (IH h' (S i) Hne Hpo' Hcn' Hsr' ltac:(lia)).
  destruct (trials fuel cards dealer_cards bet actions h' (S i) rest)
    as [h2| |]; [|exact I|nia].
  rewrite IH, Hrv. destruct (root_visits h) as [v|]; simpl; [|reflexivity].
  f_equal. lia.
Qed.

(** X26. The search always ends: with fuel for one loop iteration per
    object that the passes can create, and three more, [get_action]
    returns its answer or raises; the loop that walks down the tree is
    never left for want of fuel, nor are the simulated rounds and the
    walks back to the root. *)
Theorem mcts_get_action_ends fuel deck bet randoms cards dealer_cards :
  (length actions * length randoms + 3 <= fuel)%nat ->
  is_unfinished
    (mcts_get_action fuel deck bet randoms cards actions dealer_cards)
  = false.
Proof.
  intros Hf. unfold mcts_get_action.
  destruct (unseen_deck deck cards dealer_cards); [|reflexivity].
  destruct (expand_spec actions [root_node] 0%nat root_node eq_refl)
    as (h0 & Hrun & Hlen & _).
  rewrite Hrun. simpl in Hlen.
  destruct (decide (actions = [])) as [Hnil|Hne].
  { destruct randoms as [|random rest]; simpl.
    - destruct (best_action h0 0); reflexivity.
    - unfold trial. rewrite Hnil in Hrun. injection Hrun as <-.
      reflexivity. }
  pose proof (trials_spec fuel cards dealer_cards bet randoms h0 0%nat Hne
                (parents_older_expand _ _ _ _ parents_older_root Hrun)
                (children_newer_expand _ _ _ children_newer_root Hrun)
                (single_root_expand _ _ _ single_root_root Hrun)
                ltac:(lia)) as Hends.
  destruct (trials fuel cards dealer_cards bet actions h0 0 randoms)
    as [h| |]; [|reflexivity|lia].
  destruct (best_action h 0); reflexivity.
Qed.

(** X27. Every pass of the search is counted at the root: when the loop
    is through, [root.visits] is the number of passes. *)
Theorem every_pass_counted_at_root fuel cards dealer_cards bet randoms
    h0 h :
  expand [root_node] 0 actions = Some h0 ->
  trials fuel cards dealer_cards bet actions h0 0 randoms = Returns h ->
  root_visits h = Some (length randoms).
Proof.
  intros Hrun Ht.
  destruct (decide (actions = [])) as [Hnil|Hne].
  { rewrite Hnil in Hrun. injection Hrun as <-.
    destruct randoms as [|random rest]; simpl in Ht.
    - injection Ht as <-. reflexivity.
    - discriminate Ht. }
  destruct (expand_spec actions [root_node] 0%nat root_node eq_refl)
    as (h1 & Hrun' & Hlen & Hself & _).
  rewrite Hrun in Hrun'. injection Hrun' as <-. simpl in Hlen.
  pose proof (trials_spec fuel cards dealer_cards bet randoms h0 0%nat Hne
                (parents_older_expand _ _ _ _ parents_older_root Hrun)
                (children_newer_expand _ _ _ children_newer_root Hrun)
                (single_root_expand _ _ _ single_root_root Hrun)
                ltac:(lia)) as Hspec.
  rewrite Ht in Hspec. rewrite Hspec. unfold root_visits.
  rewrite Hself. reflexivity.
Qed.

End Descent.

Lemma mcts_get_action_offered_witness :
  In HIT [HIT; STAND; DOUBLE_DOWN] /\
  ((HIT = DOUBLE_DOWN /\ 2 = 2 * 2) \/ (HIT <> DOUBLE_DOWN /\ 2 = 2)).
Proof.
  apply (mcts_get_action_offered (ops := exact_ops) [HIT; STAND; DOUBLE_DOWN]
           21 nine_cards 2 six_passes low_pair [hearts "10" 10] HIT 2).
  vm_compute. reflexivity.
Defined.

Lemma mcts_get_action_ends_witness :
  is_unfinished
    (mcts_get_action (ops := exact_ops) 21 nine_cards 2 six_passes low_pair
                     [HIT; STAND; DOUBLE_DOWN] [hearts "10" 10]) = false.
Proof.
  apply (mcts_get_action_ends (ops := exact_ops) [HIT; STAND; DOUBLE_DOWN]).
  simpl. lia.
Defined.

Lemma every_pass_counted_at_root_witness :
  root_visits searched_tree = Some 6%nat.
Proof.
  apply (every_pass_counted_at_root (ops := exact_ops)
           [HIT; STAND; DOUBLE_DOWN] 21 low_pair [hearts "10" 10] 2
           six_passes fresh_tree searched_tree);
    vm_compute; reflexivity.
Defined.

(** ** The basic strategy *)

Section BasicStrategy.

Variable split_rule : Card -> Card -> bool.

#[local] Arguments Engine.legal_actions : simpl never.
#[local] Arguments Engine.action_in : simpl never.
#[local] Arguments get_value : simpl never.

Lemma raw_sum_snoc cards c : raw_sum (cards ++ [c]) = raw_sum cards + value c.
Proof.
  induction cards as [|x cards IH]; simpl; [lia|].
  unfold raw_sum in *. simpl. rewrite IH. lia.
Qed.

Lemma count_aces_snoc cards c :
  count_aces (cards ++ [c])
  = (count_aces cards + if is_ace c then 1 else 0)%nat.
Proof.
  induction cards as [|x cards IH]; simpl.
  - destruct (is_ace c); reflexivity.
  - rewrite IH. destruct (is_ace x); lia.
Qed.

(** A hand below 12 counts every ace it can as one; one more card
    cannot take it over 21. *)
Lemma hit_below_12 cards c :
  get_value cards < 12 -> plain_card c -> get_value (cards ++ [c]) <= 21.
Proof.
  intros Hlow Hc. rewrite get_value_unfold in *.
  rewrite raw_sum_snoc, count_aces_snoc.
  destruct (soften_spec (count_aces cards) (raw_sum cards))
    as (k0 & Hk0 & Hv0 & _ & _).
  destruct (soften_spec (count_aces cards + if is_ace c then 1 else 0)
                        (raw_sum cards + value c))
    as (k1 & Hk1 & Hv1 & _ & Hle).
  destruct (le_lt_dec (count_aces cards + if is_ace c then 1 else 0) k1)
    as [Hfull|Hpart]; [|exact (Hle Hpart)].
  rewrite Hv1. unfold plain_card in Hc. destruct (is_ace c); lia.
Qed.

Lemma basic_answer_low (g : Game unit) cards actions d ds :
  dealer_cards g = d :: ds -> value d < 7 ->
  fst (get_action basic_agent ThePlayer g cards actions)
  = if get_value cards <? 12 then HIT else STAND.
Proof.
  intros Hd Hlow. unfold get_action, basic_agent, basic_get_action.
  rewrite Hd. cbn [take fst]. rewrite (proj2 (Z.ltb_lt _ _) Hlow).
  reflexivity.
Qed.

(** X28. Shown a dealer card below 7, [BasicStrategyPlayer] never busts:
    a finished run on a hand of at most 21, from a deck of cards worth
    no more than the cards of the game, returns that one hand, unsplit,
    with a value from 12 to 21. *)
Theorem basic_strategy_never_busts fuel :
  forall r (g : Game unit) cards cansplit res c gf d ds,
    r <> DealerCards ->
    dealer_cards g = d :: ds -> value d < 7 ->
    Forall plain_card (deck g) ->
    get_value cards <= 21 ->
    play basic_agent split_rule fuel ThePlayer r g cards cansplit
    = Done (res, c) gf ->
    res = [c] /\ 12 <= get_value c <= 21.
Proof.
  induction fuel as [|fuel IH];
    intros r g cards cansplit res c gf d ds Hr Hd Hlow Hdeck Hval;
    [discriminate|].
  cbn [play]. destruct (Z.ltb_spec (get_value cards) 21) as [Hlt|Hge].
  2:{ intros [= <- <- <-]. split; [reflexivity|lia]. }
  pose proof (basic_answer_low g cards
                (legal_actions split_rule cards cansplit) d ds Hd Hlow)
    as Hans.
  destruct (get_action basic_agent ThePlayer g cards
                       (legal_actions split_rule cards cansplit))
    as [act g1] eqn:Hga.
  apply get_action_frame in Hga. destruct Hga as (Hdk1 & _ & Hdc1 & _).
  cbn [fst] in Hans. subst act.
  destruct (hit_stand_offered split_rule cards cansplit) as [Hhit Hstand].
  destruct (Z.ltb_spec (get_value cards) 12) as [Hl|Hl].
  - rewrite Hhit.
    destruct (deal g1 r cards) as [cards' g2|g2|g2] eqn:Hdeal;
      cbn [bind]; try discriminate.
    pose proof (deal_dealer_cards_other g1 r cards Hr) as Hdc.
    rewrite Hdeal in Hdc. cbn [game_of] in Hdc.
    apply (deal_done split_rule) in Hdeal.
    destruct Hdeal as (card & Hdk & -> & _).
    rewrite <- Hdk1, Hdk in Hdeck.
    apply Forall_cons in Hdeck. destruct Hdeck as [Hcard Hrest].
    apply (IH r g2 (cards ++ [card]) cansplit res c gf d ds Hr).
    + rewrite Hdc, Hdc1. exact Hd.
    + exact Hlow.
    + exact Hrest.
    + apply hit_below_12; assumption.
  - rewrite Hstand. intros [= <- <- <-]. split; [reflexivity|lia].
Qed.

End BasicStrategy.

Lemma basic_strategy_never_busts_witness :
  [[spades "2" 2; spades "3" 3; hearts "8" 8]]
  = [[spades "2" 2; spades "3" 3; hearts "8" 8]] /\
  12 <= get_value [spades "2" 2; spades "3" 3; hearts "8" 8] <= 21.
Proof.
  apply (basic_strategy_never_busts same_value 5 PlayerCards
           (mkGame [hearts "8" 8; hearts "7" 7] 2
                   [hearts "5" 5; hearts "10" 10] low_pair tt [])
           low_pair true
           [[spades "2" 2; spades "3" 3; hearts "8" 8]]
           [spades "2" 2; spades "3" 3; hearts "8" 8]
           (mkGame [hearts "7" 7] 2 [hearts "5" 5; hearts "10" 10]
                   [spades "2" 2; spades "3" 3; hearts "8" 8] tt
                   [mkQuery ThePlayer low_pair
                            (legal_actions same_value low_pair true)
                            [hearts "5" 5] HIT;
                    mkQuery ThePlayer
                            [spades "2" 2; spades "3" 3; hearts "8" 8]
                            (legal_actions same_value
                               [spades "2" 2; spades "3" 3; hearts "8" 8]
                               true)
                            [hearts "5" 5] STAND])
           (hearts "5" 5) [hearts "10" 10]).
  - discriminate.
  - reflexivity.
  - simpl. lia.
  - repeat constructor; unfold plain_card; simpl; lia.
  - vm_compute. discriminate.
  - vm_compute. reflexivity.
Defined.
